(** * Values merging of keadm's helm command

    A verification development for
    [keadm/cmd/keadm/app/cmd/helm/values.go]:

    - [mergeMaps], the recursive deep merge of two values documents,
      first as a function on documents seen as finite trees, then as a
      big-step relation on a store of Go maps, where aliasing, allocation
      and the unspecified iteration order of [range] are explicit;
    - [readFile], the "path or standard input" read;
    - [MergeValues], the six loops over an [Options] bundle.

    The packages [strvals] (helm) and [yaml] (sigs.k8s.io) are outside the
    repository: they enter as the fields of an interface. *)

From Stdlib Require Import Ascii.
From stdpp Require Import gmap strings list fin_maps.

#[local] Set Warnings "-register-all,-clear-no-such-hyp".

(** ** Values documents *)

(** What a [map[string]interface{}] holds after [yaml.Unmarshal] or an
    assignment of [strvals]: [nil], a [bool], an [int64], a [float64]
    (kept as its IEEE-754 bit pattern), a [string], a [[]interface{}] or
    again a [map[string]interface{}]. *)
Inductive val : Type :=
| VNull
| VBool (b : bool)
| VInt (n : Z)
| VFloat (bits : Z)
| VStr (s : string)
| VSeq (l : list val)
| VMap (m : gmap string val).

(** The type assertion [v.(map[string]interface{})]. *)
Definition asMap (v : val) : option (gmap string val) :=
  match v with
  | VMap m => Some m
  | _ => None
  end.

Fixpoint val_size (v : val) : nat :=
  match v with
  | VSeq l => S (foldr (λ x acc, val_size x + acc) 0 l)
  | VMap m => S (map_fold (λ _ x acc, val_size x + acc) 0 m)
  | _ => 1
  end.

Definition doc_size (m : gmap string val) : nat := val_size (VMap m).

(** ** mergeMaps on documents *)

(** The first loop of [mergeMaps]: [for k, v := range a { out[k] = v }]. *)
Definition copyMap (a : gmap string val) : gmap string val :=
  map_fold (λ k v out, <[k := v]> out) ∅ a.

(** The recursion of [mergeMaps] descends into the values of [b]; the
    structural argument is therefore the incoming document, passed as the
    value that holds it. [mergeInto (VMap b) a] is [mergeMaps a b]. *)
Fixpoint mergeInto (b : val) : gmap string val → gmap string val :=
  match b with
  | VMap mb => λ a,
      let out := copyMap a in
      map_fold (λ k v out,
        match v with
        | VMap _ =>
            match out !! k with
            | Some (VMap bv) => <[k := VMap (mergeInto v bv)]> out
            | _ => <[k := v]> out
            end
        | _ => <[k := v]> out
        end) out mb
  | _ => λ a, a
  end.

Definition mergeMaps (a b : gmap string val) : gmap string val :=
  mergeInto (VMap b) a.

(** The body of the second loop of [mergeMaps], for one entry [k, v] of
    [b], with the recursive call as written in the source. *)
Definition mergeEntry (k : string) (v : val) (out : gmap string val)
  : gmap string val :=
  match asMap v with
  | Some v' =>
      match out !! k with
      | Some bv =>
          match asMap bv with
          | Some bv' => <[k := VMap (mergeMaps bv' v')]> out
          | None => <[k := v]> out
          end
      | None => <[k := v]> out
      end
  | None => <[k := v]> out
  end.

(** What the second loop leaves under one key, from what was there. *)
Definition mergeSlot (old : option val) (v : val) : val :=
  match old, v with
  | Some (VMap bv), VMap vm => VMap (mergeMaps bv vm)
  | _, _ => v
  end.

(** ** mergeMaps on a store of maps *)

(** A Go map value is a reference to a map object; two values may hold
    the same reference, and [out[k] = v] stores the reference, not a copy.
    The store below makes that explicit: [hval] is what an [interface{}]
    holds, a map being [HMap r] with [r] the address of the map object,
    or [None] for the nil map. *)
Abbreviation loc := positive (only parsing).

Inductive hval : Type :=
| HNull
| HBool (b : bool)
| HInt (n : Z)
| HFloat (bits : Z)
| HStr (s : string)
| HSeq (l : list hval)
| HMap (r : option loc).

Abbreviation heap := (gmap loc (gmap string hval)) (only parsing).

(** Reading through a map reference; a nil map reads as an empty one
    ([len], [range] and lookups are defined on it). *)
Definition readMap (h : heap) (r : option loc) : option (gmap string hval) :=
  match r with
  | None => Some ∅
  | Some l => h !! l
  end.

(** The assignment [m[k] = v] on the map object at [l]. *)
Definition storeKey (h : heap) (l : loc) (k : string) (v : hval) : heap :=
  alter (insert k v) l h.

(** The first loop, over the entries of [a] in the order [la]. *)
Definition copyRange (out : loc) (la : list (string * hval)) (h : heap) : heap :=
  foldl (λ h kv, storeKey h out kv.1 kv.2) h la.

(** The three nested type assertions and lookups that guard the
    recursive call: [v] is a map, [out[k]] exists and is a map. *)
Definition bothMaps (old : option hval) (v : hval) : bool :=
  match v, old with
  | HMap _, Some (HMap _) => true
  | _, _ => false
  end.

(** A run of [mergeMaps(a, b)] from store [h], ending in store [h'] with
    the returned reference [out]. [make] yields any unused address.
    [range] over a map visits every entry once, in an order that the
    language leaves open: [la] and [lb] are any orderings of the entries
    that [a] and [b] hold when the call starts. *)
Inductive mergeMaps_heap : heap → option loc → option loc → heap → loc → Prop :=
| mergeMaps_heap_run h a b ma mb la lb out h' :
    readMap h a = Some ma →
    readMap h b = Some mb →
    h !! out = None →
    la ≡ₚ map_to_list ma →
    lb ≡ₚ map_to_list mb →
    range_b out lb (copyRange out la (<[out := ∅]> h)) h' →
    mergeMaps_heap h a b h' out
with range_b : loc → list (string * hval) → heap → heap → Prop :=
| range_b_done out h :
    range_b out [] h h
| range_b_merge out k vr lb h mo bvr h1 r h' :
    h !! out = Some mo →
    mo !! k = Some (HMap bvr) →
    mergeMaps_heap h bvr vr h1 r →
    range_b out lb (storeKey h1 out k (HMap (Some r))) h' →
    range_b out ((k, HMap vr) :: lb) h h'
| range_b_set out k v lb h mo h' :
    h !! out = Some mo →
    bothMaps (mo !! k) v = false →
    range_b out lb (storeKey h out k v) h' →
    range_b out ((k, v) :: lb) h h'.

Scheme mergeMaps_heap_mut := Minimality for mergeMaps_heap Sort Prop
  with range_b_mut := Minimality for range_b Sort Prop.
Combined Scheme mergeMaps_heap_range_b_ind from mergeMaps_heap_mut, range_b_mut.

(** [reps h hv v]: in store [h], the stored value [hv] denotes the
    document value [v]. *)
Inductive reps (h : heap) : hval → val → Prop :=
| reps_null : reps h HNull VNull
| reps_bool b : reps h (HBool b) (VBool b)
| reps_int n : reps h (HInt n) (VInt n)
| reps_float x : reps h (HFloat x) (VFloat x)
| reps_str s : reps h (HStr s) (VStr s)
| reps_seq hs vs :
    length hs = length vs →
    (∀ i hv v, hs !! i = Some hv → vs !! i = Some v → reps h hv v) →
    reps h (HSeq hs) (VSeq vs)
| reps_map r hm m :
    readMap h r = Some hm →
    dom hm = dom m →
    (∀ k hv v, hm !! k = Some hv → m !! k = Some v → reps h hv v) →
    reps h (HMap r) (VMap m).

Definition reps_doc (h : heap) (r : option loc) (m : gmap string val) : Prop :=
  reps h (HMap r) (VMap m).

(** The entries of a map object denote the entries of a document. *)
Definition reps_entries (h : heap) (hm : gmap string hval)
    (m : gmap string val) : Prop :=
  dom hm = dom m ∧
  ∀ k hv v, hm !! k = Some hv → m !! k = Some v → reps h hv v.

(** The second loop on documents, over the keys [ks] of [b] in order. *)
Definition mergeKeys (ks : list string) (out b : gmap string val)
  : gmap string val :=
  foldl (λ o k, match b !! k with
                | Some v => mergeEntry k v o
                | None => o
                end) out ks.

(** [g] is a part of the store [h] (the part some documents live in);
    after a run that ends in [h'], [g'] is [g] with map objects that the
    run allocated. *)
Definition grown (g h g' h' : heap) : Prop :=
  g ⊆ g' ∧ g' ⊆ h' ∧ ∀ l, is_Some (g' !! l) → is_Some (g !! l) ∨ h !! l = None.

(** One run, computed: the fresh address is the one that [fresh] picks,
    the entries are visited in the order of [map_to_list], and [fuel]
    bounds the depth of the recursion. *)
Fixpoint mergeMaps_exec (fuel : nat) (h : heap) (a b : option loc)
  : option (heap * loc) :=
  match fuel with
  | 0 => None
  | S fuel =>
      ma ← readMap h a;
      mb ← readMap h b;
      let out := fresh (dom h) in
      h' ← foldl (λ acc kv,
                   h ← acc;
                   mo ← h !! out;
                   match kv.2, mo !! kv.1 with
                   | HMap vr, Some (HMap bvr) =>
                       '(h1, r) ← mergeMaps_exec fuel h bvr vr;
                       Some (storeKey h1 out kv.1 (HMap (Some r)))
                   | v, _ => Some (storeKey h out kv.1 v)
                   end)
                 (Some (copyRange out (map_to_list ma) (<[out := ∅]> h)))
                 (map_to_list mb);
      Some (h', out)
  end.

(** ** Errors *)

(** Error values as [MergeValues] sees and builds them: an error made
    outside this package (by [os], [io], [yaml] or [strvals]), known by
    its message; [errors.Wrap] and [errors.Wrapf] of github.com/pkg/errors,
    which keep the wrapped error as the cause; [errors.Errorf], which
    has a message only. *)
Inductive error : Type :=
| ExtErr (msg : string)
| Wrap (cause : error) (msg : string)
| Errorf (msg : string).

(** The method [Error()]: a wrapped error prints as [msg: cause]. *)
Fixpoint Error (e : error) : string :=
  match e with
  | ExtErr msg => msg
  | Wrap cause msg => msg +:+ ": " +:+ Error cause
  | Errorf msg => msg
  end.

(** The error itself followed by the chain of its causes
    ([errors.Unwrap], repeated). *)
Fixpoint causes (e : error) : list error :=
  e :: match e with
       | Wrap cause _ => causes cause
       | _ => []
       end.

(** [strings.Contains]. *)
Fixpoint Contains (s substr : string) : bool :=
  if String.prefix substr s then true
  else match s with
       | EmptyString => false
       | String _ s' => Contains s' substr
       end.

(** ** strings.TrimSpace *)

(** [unicode.IsSpace] on the UTF-8 encoding of a code point: the ASCII
    bytes tab, newline, vertical tab, form feed, carriage return and
    space; U+0085 and U+00A0 on two bytes; U+1680, U+2000 to U+200A,
    U+2028, U+2029, U+202F, U+205F and U+3000 on three bytes. *)
Definition byteIs (c : ascii) (n : N) : bool := N.eqb (N_of_ascii c) n.

Definition isSpace1 (c : ascii) : bool :=
  let n := N_of_ascii c in
  (N.leb 9 n && N.leb n 13) || N.eqb n 32.

Definition isSpace2 (c1 c2 : ascii) : bool :=
  byteIs c1 194 && (byteIs c2 133 || byteIs c2 160).

Definition isSpace3 (c1 c2 c3 : ascii) : bool :=
  let n3 := N_of_ascii c3 in
  (byteIs c1 225 && byteIs c2 154 && byteIs c3 128)
  || (byteIs c1 226 && byteIs c2 128 &&
      ((N.leb 128 n3 && N.leb n3 138) || N.eqb n3 168 || N.eqb n3 169
       || N.eqb n3 175))
  || (byteIs c1 226 && byteIs c2 129 && byteIs c3 159)
  || (byteIs c1 227 && byteIs c2 128 && byteIs c3 128).

(** Drops the white space at the start of [s]; with [back], [s] is a
    reversed string and the bytes of an encoding come last byte first. *)
Fixpoint trimStart (back : bool) (s : string) : string :=
  match s with
  | String x r =>
      if isSpace1 x then trimStart back r
      else match r with
           | String y r2 =>
               if (if back then isSpace2 y x else isSpace2 x y)
               then trimStart back r2
               else match r2 with
                    | String z r3 =>
                        if (if back then isSpace3 z y x else isSpace3 x y z)
                        then trimStart back r3
                        else s
                    | EmptyString => s
                    end
           | EmptyString => s
           end
  | EmptyString => s
  end.

Definition TrimSpace (s : string) : string :=
  String.rev (trimStart true (String.rev (trimStart false s))).

(** ** The world outside: standard input and the file system *)

Inductive io_event : Type :=
| EvReadStdin
| EvOpen (name : string).

(** [stdin] is what is left to read on standard input and [stdin_err]
    the error, if any, that ends the stream in place of end-of-file;
    [files] maps a path to the content of the file or to the error that
    opening or reading it gives; [io_log] records the reads made. *)
Record world : Type := World {
  stdin : string;
  stdin_err : option error;
  files : gmap string (string + error);
  io_log : list io_event
}.

(** [io.ReadAll(os.Stdin)]: everything up to the end of the stream. *)
Definition io_ReadAll_Stdin (w : world) : (string * option error) * world :=
  ((stdin w, stdin_err w),
   {| stdin := ""; stdin_err := stdin_err w; files := files w;
      io_log := io_log w ++ [EvReadStdin] |}).

Definition notExist (name : string) : error :=
  ExtErr ("open " +:+ name +:+ ": no such file or directory").

(** [os.ReadFile(name)]: the whole file, or the error. *)
Definition os_ReadFile (name : string) (w : world)
  : (string * option error) * world :=
  let w' := {| stdin := stdin w; stdin_err := stdin_err w; files := files w;
               io_log := io_log w ++ [EvOpen name] |} in
  match files w !! name with
  | Some (inl content) => ((content, None), w')
  | Some (inr e) => (("", Some e), w')
  | None => (("", Some (notExist name)), w')
  end.

Definition readFile (filePath : string) (w : world)
  : (string * option error) * world :=
  if String.eqb (TrimSpace filePath) "-" then io_ReadAll_Stdin w
  else os_ReadFile filePath w.

(** ** The packages yaml and strvals *)

(** [strvals.ParseIntoFile] is given a callback that reads a file. What
    the package does with it is a tree: it returns, or it calls the
    reader on some text and goes on from the result. *)
Inductive plan : Type :=
| PlanDone (base : gmap string val) (err : option error)
| PlanRead (rs : string) (k : val → option error → plan).

Fixpoint runPlan (reader : string → world → (val * option error) * world)
    (p : plan) (w : world) : (gmap string val * option error) * world :=
  match p with
  | PlanDone base err => ((base, err), w)
  | PlanRead rs k =>
      let '((v, err), w') := reader rs w in
      runPlan reader (k v err) w'
  end.

(** The functions of the two packages that [MergeValues] calls. Each
    takes the map it fills and gives it back with its error: they write
    into [base] in place and may have written before they fail. Nothing
    but the running call holds [base]: [mergeMaps] returns a new map
    object, and the maps it shares nested documents with, the former
    [base] and [currentMap], are dropped after the merge. The update in
    place is therefore the update of the document. *)
Class Libs : Type := {
  yaml_Unmarshal :
    string → gmap string val → gmap string val * option error;
  strvals_ParseJSON :
    string → gmap string val → gmap string val * option error;
  strvals_ParseInto :
    string → gmap string val → gmap string val * option error;
  strvals_ParseIntoString :
    string → gmap string val → gmap string val * option error;
  strvals_ParseIntoFile :
    string → gmap string val → plan;
  strvals_ParseLiteralInto :
    string → gmap string val → gmap string val * option error
}.

(** ** MergeValues *)

Record Options : Type := {
  ValueFiles : list string;
  StringValues : list string;
  Values : list string;
  FileValues : list string;
  JSONValues : list string;
  LiteralValues : list string
}.

(** What [MergeValues] returns: the map, or nil, and the error, or nil. *)
Abbreviation result := (option (gmap string val) * option error)%type
  (only parsing).

(** A piece of the body of [MergeValues]: it changes the world and
    either goes on with a value ([inl]) or makes the function return
    ([inr]). *)
Definition M (A : Type) : Type := world → (A + result) * world.

#[global] Instance M_ret : MRet M := λ A a w, (inl a, w).

#[global] Instance M_bind : MBind M := λ A B k m w,
  match m w with
  | (inl a, w') => k a w'
  | (inr r, w') => (inr r, w')
  end.

Definition Return {A} (r : result) : M A := λ w, (inr r, w).

Definition io {A} (f : world → A * world) : M A :=
  λ w, let '(a, w') := f w in (inl a, w').

(** [for _, x := range xs { body }], where the body may return. *)
Fixpoint rangeLoop {A S} (body : A → S → M S) (xs : list A) (s : S) : M S :=
  match xs with
  | [] => mret s
  | x :: xs' => s' ← body x s; rangeLoop body xs' s'
  end.

(** Runs a function body to its return. *)
Definition call (body : M result) (w : world) : result * world :=
  match body w with
  | (inl r, w') => (r, w')
  | (inr r, w') => (r, w')
  end.

Section MergeValues.
Context `{libs : Libs}.

(** The body of the loop over [opts.ValueFiles]. *)
Definition valueFileBody (filePath : string) (base : gmap string val)
  : M (gmap string val) :=
  let currentMap : gmap string val := ∅ in
  '(bytes, err) ← io (readFile filePath);
  match err with
  | Some err => Return (None, Some err)
  | None =>
      let '(currentMap, err) := yaml_Unmarshal bytes currentMap in
      match err with
      | Some err =>
          Return (None, Some (Wrap err ("failed to parse " +:+ filePath)))
      | None => mret (mergeMaps base currentMap)
      end
  end.

(** The body of the loop over [opts.JSONValues]. *)
Definition jsonValueBody (value : string) (base : gmap string val)
  : M (gmap string val) :=
  let '(base, err) := strvals_ParseJSON value base in
  match err with
  | Some _ =>
      Return (None, Some (Errorf ("failed parsing --set-json data " +:+ value)))
  | None => mret base
  end.

(** The body of the loop over [opts.Values]. *)
Definition valueBody (value : string) (base : gmap string val)
  : M (gmap string val) :=
  let '(base, err) := strvals_ParseInto value base in
  match err with
  | Some err => Return (None, Some (Wrap err "failed parsing --set data"))
  | None => mret base
  end.

(** The body of the loop over [opts.StringValues]. *)
Definition stringValueBody (value : string) (base : gmap string val)
  : M (gmap string val) :=
  let '(base, err) := strvals_ParseIntoString value base in
  match err with
  | Some err => Return (None, Some (Wrap err "failed parsing --set-string data"))
  | None => mret base
  end.

(** The closure [reader] of the loop over [opts.FileValues]. *)
Definition reader (rs : string) (w : world) : (val * option error) * world :=
  let '((bytes, err), w') := readFile rs w in
  match err with
  | Some err => ((VNull, Some err), w')
  | None => ((VStr bytes, err), w')
  end.

(** The body of the loop over [opts.FileValues]. *)
Definition fileValueBody (value : string) (base : gmap string val)
  : M (gmap string val) :=
  '(base, err) ← io (runPlan reader (strvals_ParseIntoFile value base));
  match err with
  | Some err => Return (None, Some (Wrap err "failed parsing --set-file data"))
  | None => mret base
  end.

(** The body of the loop over [opts.LiteralValues]. *)
Definition literalValueBody (value : string) (base : gmap string val)
  : M (gmap string val) :=
  let '(base, err) := strvals_ParseLiteralInto value base in
  match err with
  | Some err => Return (None, Some (Wrap err "failed parsing --set-literal data"))
  | None => mret base
  end.

Definition MergeValues (opts : Options) : world → result * world :=
  call (
    let base : gmap string val := ∅ in
    base ← rangeLoop valueFileBody (ValueFiles opts) base;
    base ← rangeLoop jsonValueBody (JSONValues opts) base;
    base ← rangeLoop valueBody (Values opts) base;
    base ← rangeLoop stringValueBody (StringValues opts) base;
    base ← rangeLoop fileValueBody (FileValues opts) base;
    base ← rangeLoop literalValueBody (LiteralValues opts) base;
    mret (Some base, None)).

(** *** The inputs of a call as one sequence *)

(** One value-file path or one assignment expression, with its kind. *)
Inductive item : Type :=
| IValueFile (filePath : string)
| IJSONValue (value : string)
| IValue (value : string)
| IStringValue (value : string)
| IFileValue (value : string)
| ILiteralValue (value : string).

(** The text of an item: the path or the raw expression. *)
Definition item_text (x : item) : string :=
  match x with
  | IValueFile s | IJSONValue s | IValue s | IStringValue s
  | IFileValue s | ILiteralValue s => s
  end.

(** The files first, then the expressions by kind: JSON, plain,
    string, file, literal. *)
Definition items (opts : Options) : list item :=
  (IValueFile <$> ValueFiles opts) ++
  (IJSONValue <$> JSONValues opts) ++
  (IValue <$> Values opts) ++
  (IStringValue <$> StringValues opts) ++
  (IFileValue <$> FileValues opts) ++
  (ILiteralValue <$> LiteralValues opts).

Definition step (x : item) : gmap string val → M (gmap string val) :=
  match x with
  | IValueFile filePath => valueFileBody filePath
  | IJSONValue value => jsonValueBody value
  | IValue value => valueBody value
  | IStringValue value => stringValueBody value
  | IFileValue value => fileValueBody value
  | ILiteralValue value => literalValueBody value
  end.

(** The expressions loops of [MergeValues], from the document that the
    files gave. *)
Definition applyValues (opts : Options) (base : gmap string val)
  : M result :=
  base ← rangeLoop jsonValueBody (JSONValues opts) base;
  base ← rangeLoop valueBody (Values opts) base;
  base ← rangeLoop stringValueBody (StringValues opts) base;
  base ← rangeLoop fileValueBody (FileValues opts) base;
  base ← rangeLoop literalValueBody (LiteralValues opts) base;
  mret (Some base, None).

(** How the body for item [x], run from [base] and [w], comes to return
    the error [e] in world [w']: which read or which call failed, with
    what error [u], and how [e] is built from [u]. *)
Definition returns_error (x : item) (base : gmap string val) (w : world)
    (e : error) (w' : world) : Prop :=
  match x with
  | IValueFile filePath =>
      (∃ bytes, readFile filePath w = ((bytes, Some e), w')) ∨
      (∃ bytes currentMap u,
         readFile filePath w = ((bytes, None), w') ∧
         yaml_Unmarshal bytes ∅ = (currentMap, Some u) ∧
         e = Wrap u ("failed to parse " +:+ filePath))
  | IJSONValue value =>
      w' = w ∧ ∃ base' u,
        strvals_ParseJSON value base = (base', Some u) ∧
        e = Errorf ("failed parsing --set-json data " +:+ value)
  | IValue value =>
      w' = w ∧ ∃ base' u,
        strvals_ParseInto value base = (base', Some u) ∧
        e = Wrap u "failed parsing --set data"
  | IStringValue value =>
      w' = w ∧ ∃ base' u,
        strvals_ParseIntoString value base = (base', Some u) ∧
        e = Wrap u "failed parsing --set-string data"
  | IFileValue value =>
      ∃ base' u,
        runPlan reader (strvals_ParseIntoFile value base) w
          = ((base', Some u), w') ∧
        e = Wrap u "failed parsing --set-file data"
  | ILiteralValue value =>
      w' = w ∧ ∃ base' u,
        strvals_ParseLiteralInto value base = (base', Some u) ∧
        e = Wrap u "failed parsing --set-literal data"
  end.

(** The error that the read or the package raises while the body for
    item [x] runs from [base] and [w], if any. *)
Definition raised (x : item) (base : gmap string val) (w : world)
  : option error :=
  match x with
  | IValueFile filePath =>
      let '((bytes, err), _) := readFile filePath w in
      match err with
      | Some err => Some err
      | None => (yaml_Unmarshal bytes ∅).2
      end
  | IJSONValue value => (strvals_ParseJSON value base).2
  | IValue value => (strvals_ParseInto value base).2
  | IStringValue value => (strvals_ParseIntoString value base).2
  | IFileValue value =>
      (runPlan reader (strvals_ParseIntoFile value base) w).1.2
  | ILiteralValue value => (strvals_ParseLiteralInto value base).2
  end.

Definition isJSONValue (x : item) : bool :=
  match x with
  | IJSONValue _ => true
  | _ => false
  end.

(** *** MergeValues with the merges run on the store *)

(** One call [mergeMaps(base, currentMap)] as the machine runs it: the
    two documents lie somewhere in some store, the call runs with some
    order of visit and some fresh addresses, and the document it returns
    is read back from the store. *)
Definition merge_run (A B C : gmap string val) : Prop :=
  ∃ (h : heap) a b h' out,
    reps_doc h a A ∧ reps_doc h b B ∧
    mergeMaps_heap h a b h' out ∧ reps_doc h' (Some out) C.

(** One iteration of the loop over [opts.ValueFiles], with such a call. *)
Inductive valueFileBody_run (filePath : string) (base : gmap string val)
    (w : world) : (gmap string val + result) * world → Prop :=
| valueFileBody_read_fails bytes err w' :
    readFile filePath w = ((bytes, Some err), w') →
    valueFileBody_run filePath base w (inr (None, Some err), w')
| valueFileBody_parse_fails bytes w' currentMap err :
    readFile filePath w = ((bytes, None), w') →
    yaml_Unmarshal bytes ∅ = (currentMap, Some err) →
    valueFileBody_run filePath base w
      (inr (None, Some (Wrap err ("failed to parse " +:+ filePath))), w')
| valueFileBody_merges bytes w' currentMap base' :
    readFile filePath w = ((bytes, None), w') →
    yaml_Unmarshal bytes ∅ = (currentMap, None) →
    merge_run base currentMap base' →
    valueFileBody_run filePath base w (inl base', w').

Inductive valueFiles_run : list string → gmap string val → world →
    (gmap string val + result) * world → Prop :=
| valueFiles_done base w :
    valueFiles_run [] base w (inl base, w)
| valueFiles_return filePath rest base w r w' :
    valueFileBody_run filePath base w (inr r, w') →
    valueFiles_run (filePath :: rest) base w (inr r, w')
| valueFiles_next filePath rest base w base' w' res :
    valueFileBody_run filePath base w (inl base', w') →
    valueFiles_run rest base' w' res →
    valueFiles_run (filePath :: rest) base w res.

Inductive MergeValues_run (opts : Options) (w : world)
    : result * world → Prop :=
| MergeValues_run_return r w' :
    valueFiles_run (ValueFiles opts) ∅ w (inr r, w') →
    MergeValues_run opts w (r, w')
| MergeValues_run_values base w' :
    valueFiles_run (ValueFiles opts) ∅ w (inl base, w') →
    MergeValues_run opts w (call (applyValues opts base) w').

End MergeValues.

(** ** An implementation of the two packages on a fragment

    The theorems below hold for every implementation of [Libs]. The
    closed examples need one: [flatLibs] follows helm's [strvals] and
    sigs.k8s.io's [yaml] on flat input, that is comma-separated
    [key=text] pairs and files of [key: text] lines, with keys and texts
    made of letters, digits, [_] and [-] (texts also of [.] and [/]), and
    rejects everything else as outside the fragment. *)
Module Flat.

Definition isLetter (c : ascii) : bool :=
  let n := N_of_ascii c in
  (N.leb 65 n && N.leb n 90) || (N.leb 97 n && N.leb n 122).

Definition isDigit (c : ascii) : bool :=
  let n := N_of_ascii c in N.leb 48 n && N.leb n 57.

Definition plainByte (c : ascii) : bool :=
  isLetter c || isDigit c || byteIs c 95 || byteIs c 45.

Definition textByte (c : ascii) : bool :=
  plainByte c || byteIs c 46 || byteIs c 47.

Definition snoc (s : string) (c : ascii) : string := s +:+ String c "".

Definition lowerByte (c : ascii) : ascii :=
  let n := N_of_ascii c in
  if N.leb 65 n && N.leb n 90 then ascii_of_N (n + 32) else c.

Fixpoint lower (s : string) : string :=
  match s with
  | EmptyString => EmptyString
  | String c r => String (lowerByte c) (lower r)
  end.

Fixpoint digits (s : string) (acc : Z) : option Z :=
  match s with
  | EmptyString => Some acc
  | String c r =>
      if isDigit c then digits r (10 * acc + Z.of_N (N_of_ascii c) - 48)%Z
      else None
  end.

(** [strconv.ParseInt(s, 10, 64)] on an optional minus sign and digits. *)
Definition parseInt (s : string) : option Z :=
  match s with
  | EmptyString => None
  | String c r =>
      let n := if byteIs c 45
               then match r with
                    | EmptyString => None
                    | _ => Z.opp <$> digits r 0
                    end
               else digits s 0 in
      match n with
      | Some n =>
          if bool_decide (- 2 ^ 63 ≤ n < 2 ^ 63)%Z then Some n else None
      | None => None
      end
  end.

(** [typedVal] of strvals; [st] forces a string. *)
Definition typedVal (v : string) (st : bool) : val :=
  if st then VStr v
  else if String.eqb (lower v) "true" then VBool true
  else if String.eqb (lower v) "false" then VBool false
  else if String.eqb (lower v) "null" then VNull
  else if String.eqb v "0" then VInt 0
  else match v with
       | String c _ =>
           if byteIs c 48 then VStr v
           else match parseInt v with
                | Some n => VInt n
                | None => VStr v
                end
       | EmptyString => VStr v
       end.

(** [set] of strvals: an empty key is not stored. *)
Definition set (data : gmap string val) (key : string) (v : val)
  : gmap string val :=
  if String.eqb key "" then data else <[key := v]> data.

Definition dquote : string := String (ascii_of_N 34) "".

Definition noValue (k : string) : error :=
  ExtErr ("key " +:+ dquote +:+ k +:+ dquote +:+ " has no value").

Definition noValueComma (k : string) : error :=
  ExtErr ("key " +:+ dquote +:+ k +:+ dquote +:+
          " has no value (cannot end with ,)").

Definition outside : error := ExtErr "input outside the flat fragment".

Inductive mode : Type :=
| InKey (k : string)
| InVal (k v : string).

(** The scanner of [ParseInto] ([st] false) and [ParseIntoString]
    ([st] true), and of [ParseJSON] on the values [true], [false],
    [null] and the empty value. *)
Fixpoint scan (typ : string → val + error) (s : string) (m : mode)
    (base : gmap string val) : gmap string val * option error :=
  match s, m with
  | EmptyString, InKey EmptyString => (base, None)
  | EmptyString, InKey k => (base, Some (noValue k))
  | EmptyString, InVal k v =>
      match typ v with
      | inl x => (set base k x, None)
      | inr e => (base, Some e)
      end
  | String c r, InKey k =>
      if byteIs c 61 then scan typ r (InVal k "") base
      else if byteIs c 44 then (set base k (VStr ""), Some (noValueComma k))
      else if plainByte c then scan typ r (InKey (snoc k c)) base
      else (base, Some outside)
  | String c r, InVal k v =>
      if byteIs c 44 then
        match typ v with
        | inl x => scan typ r (InKey "") (set base k x)
        | inr e => (base, Some e)
        end
      else if textByte c then scan typ r (InVal k (snoc v c)) base
      else (base, Some outside)
  end.

Definition jsonVal (v : string) : val + error :=
  if String.eqb v "true" then inl (VBool true)
  else if String.eqb v "false" then inl (VBool false)
  else if String.eqb v "null" then inl VNull
  else if String.eqb v "" then inl VNull
  else inr outside.

(** The scanner of [ParseIntoFile]: the text after [=] is handed to the
    reader, and what the reader gives is stored even when it fails. *)
Fixpoint scanFile (s : string) (m : mode) (base : gmap string val) : plan :=
  match s, m with
  | EmptyString, InKey EmptyString => PlanDone base None
  | EmptyString, InKey k => PlanDone base (Some (noValue k))
  | EmptyString, InVal k EmptyString => PlanDone (set base k (VStr "")) None
  | EmptyString, InVal k v =>
      PlanRead v (λ x e, PlanDone (set base k x) e)
  | String c r, InKey k =>
      if byteIs c 61 then scanFile r (InVal k "") base
      else if byteIs c 44
      then PlanDone (set base k (VStr "")) (Some (noValueComma k))
      else if plainByte c then scanFile r (InKey (snoc k c)) base
      else PlanDone base (Some outside)
  | String c r, InVal k v =>
      if byteIs c 44 then
        PlanRead v (λ x e,
          match e with
          | Some _ => PlanDone (set base k x) e
          | None => scanFile r (InKey "") (set base k x)
          end)
      else if textByte c then scanFile r (InVal k (snoc v c)) base
      else PlanDone base (Some outside)
  end.

(** The scanner of [ParseLiteralInto]: all that follows the first [=]
    is the value, as it stands. *)
Fixpoint scanLiteral (s : string) (k : string) (base : gmap string val)
  : gmap string val * option error :=
  match s with
  | EmptyString =>
      match k with
      | EmptyString => (base, None)
      | _ => (base, Some (noValue k))
      end
  | String c r =>
      if byteIs c 61 then (set base k (VStr r), None)
      else if plainByte c then scanLiteral r (snoc k c) base
      else (base, Some outside)
  end.

(** Plain scalars that YAML 1.1 does not read as strings. *)
Definition yamlSpecial (v : string) : bool :=
  bool_decide (lower v ∈ ["y"; "yes"; "n"; "no"; "on"; "off";
                          "true"; "false"; "null"]).

Definition yamlWord (v : string) : bool :=
  match v with
  | String c _ => isLetter c && negb (yamlSpecial v)
  | EmptyString => false
  end.

Definition yamlVal (v : string) : val + error :=
  if String.eqb v "true" then inl (VBool true)
  else if String.eqb v "false" then inl (VBool false)
  else if String.eqb v "null" then inl VNull
  else if yamlWord v then inl (VStr v)
  else inr outside.

Inductive ymode : Type :=
| YKey (k : string)
| YColon (k : string)
| YVal (k v : string).

(** Lines [key: text], each ended by a newline. *)
Fixpoint scanYaml (s : string) (m : ymode) (out : gmap string val)
  : gmap string val * option error :=
  match s, m with
  | EmptyString, YKey EmptyString => (out, None)
  | EmptyString, _ => (out, Some outside)
  | String c r, YKey k =>
      if byteIs c 58 then
        if yamlWord k && bool_decide (out !! k = None)
        then scanYaml r (YColon k) out
        else (out, Some outside)
      else if plainByte c then scanYaml r (YKey (snoc k c)) out
      else (out, Some outside)
  | String c r, YColon k =>
      if byteIs c 32 then scanYaml r (YVal k "") out
      else (out, Some outside)
  | String c r, YVal k v =>
      if byteIs c 10 then
        match yamlVal v with
        | inl x => scanYaml r (YKey "") (<[k := x]> out)
        | inr e => (out, Some e)
        end
      else if textByte c then scanYaml r (YVal k (snoc v c)) out
      else (out, Some outside)
  end.

End Flat.

#[local] Instance flatLibs : Libs := {|
  yaml_Unmarshal bytes currentMap := Flat.scanYaml bytes (Flat.YKey "") currentMap;
  strvals_ParseJSON s dest := Flat.scan Flat.jsonVal s (Flat.InKey "") dest;
  strvals_ParseInto s dest :=
    Flat.scan (λ v, inl (Flat.typedVal v false)) s (Flat.InKey "") dest;
  strvals_ParseIntoString s dest :=
    Flat.scan (λ v, inl (Flat.typedVal v true)) s (Flat.InKey "") dest;
  strvals_ParseIntoFile s dest := Flat.scanFile s (Flat.InKey "") dest;
  strvals_ParseLiteralInto s dest := Flat.scanLiteral s "" dest
|}.

(** A world with nothing on standard input and no file. *)
Definition emptyWorld : world :=
  {| stdin := ""; stdin_err := None; files := ∅; io_log := [] |}.

(** ** Inputs of the closed examples *)

Definition noOptions : Options :=
  {| ValueFiles := []; StringValues := []; Values := []; FileValues := [];
     JSONValues := []; LiteralValues := [] |}.

(** [--set a=1 --set-string a=1]. *)
Definition plainThenString : Options :=
  {| ValueFiles := []; StringValues := ["a=1"]; Values := ["a=1"];
     FileValues := []; JSONValues := []; LiteralValues := [] |}.

(** [--set a=1,b]: the second pair has no value. *)
Definition plainWithoutValue : Options :=
  {| ValueFiles := []; StringValues := []; Values := ["a=1,b"];
     FileValues := []; JSONValues := []; LiteralValues := ["c=d"] |}.

(** [--set-json a]: the key has no value. *)
Definition jsonWithoutValue : Options :=
  {| ValueFiles := []; StringValues := []; Values := []; FileValues := [];
     JSONValues := ["a"]; LiteralValues := [] |}.

(** [-f bad.yaml], a file that is not a mapping. *)
Definition badFile : Options :=
  {| ValueFiles := ["bad.yaml"]; StringValues := []; Values := [];
     FileValues := []; JSONValues := []; LiteralValues := [] |}.

Definition badFileWorld : world :=
  {| stdin := ""; stdin_err := None;
     files := {[ "bad.yaml" := inl "][" ]}; io_log := [] |}.

(** Two value files, the second one on standard input, then
    expressions of every kind. *)
Definition everyKind : Options :=
  {| ValueFiles := ["f.yaml"; " - "]; StringValues := ["s=1"];
     Values := ["a=1,b=-12,c=x"]; FileValues := ["k=f.yaml,m=-"];
     JSONValues := ["j=true"]; LiteralValues := ["key=a,b=c"] |}.

Definition fileText : string := "a: foo" +:+ String (ascii_of_N 10) "".

Definition stdinText : string := "q: zed" +:+ String (ascii_of_N 10) "".

Definition everyKindWorld : world :=
  {| stdin := stdinText; stdin_err := None;
     files := {[ "f.yaml" := inl fileText ]}; io_log := [] |}.

(** A store with [{a: {x: 1}}] at address 1 and [{a: {y: 2}}] at
    address 3. *)
Definition twoDocs : gmap positive (gmap string hval) :=
  {[ 1%positive := {[ "a" := HMap (Some 2%positive) ]};
     2%positive := {[ "x" := HInt 1 ]};
     3%positive := {[ "a" := HMap (Some 4%positive) ]};
     4%positive := {[ "y" := HInt 2 ]} ]}.

(** ** Paths into a document *)

(** The value found by following the keys of [p] from [v] through nested
    documents; no key leads through a scalar or a sequence. *)
Fixpoint getPath (p : list string) (v : val) : option val :=
  match p with
  | [] => Some v
  | k :: p' =>
      match v with
      | VMap m => m !! k ≫= getPath p'
      | _ => None
      end
  end.

(** [v] holds nothing on the path [p]: following [p], a key is missing
    before the path ends. *)
Fixpoint offPath (p : list string) (v : val) : bool :=
  match p with
  | [] => false
  | k :: p' =>
      match v with
      | VMap m =>
          match m !! k with
          | None => true
          | Some v' =>
              match v' with
              | VMap _ => offPath p' v'
              | _ => false
              end
          end
      | _ => false
      end
  end.

Definition isDoc (v : val) : bool :=
  match v with
  | VMap _ => true
  | _ => false
  end.

(** No value of the document is itself a document. *)
Definition flatDoc (m : gmap string val) : Prop :=
  map_Forall (λ _ v, isDoc v = false) m.

(** ** Reads of MergeValues *)

(** The read that [readFile] makes for a path. *)
Definition readEvent (filePath : string) : io_event :=
  if String.eqb (TrimSpace filePath) "-" then EvReadStdin
  else EvOpen filePath.

(** Two worlds that offer the same input: they differ at most by the
    log of the reads made so far. *)
Definition same_input (w1 w2 : world) : Prop :=
  stdin w1 = stdin w2 ∧ stdin_err w1 = stdin_err w2 ∧ files w1 = files w2.

(** [opts] with another list of value files. *)
Definition withValueFiles (opts : Options) (paths : list string) : Options :=
  {| ValueFiles := paths; StringValues := StringValues opts;
     Values := Values opts; FileValues := FileValues opts;
     JSONValues := JSONValues opts; LiteralValues := LiteralValues opts |}.

(** The successive worlds of a sequence of calls of [readFile]. *)
Definition readFiles (paths : list string) (w : world) : world :=
  foldl (λ w filePath, (readFile filePath w).2) w paths.

Section ValueFiles.
Context `{libs : Libs}.

(** The value files read and parsed one after the other, without the
    merge: the documents of the files, or the error of the first file
    that cannot be read or parsed, as [MergeValues] returns it. *)
Fixpoint parseValueFiles (paths : list string) (w : world)
  : (list (gmap string val) + error) * world :=
  match paths with
  | [] => (inl [], w)
  | filePath :: rest =>
      let '((bytes, err), w1) := readFile filePath w in
      match err with
      | Some err => (inr err, w1)
      | None =>
          match yaml_Unmarshal bytes ∅ with
          | (_, Some err) =>
              (inr (Wrap err ("failed to parse " +:+ filePath)), w1)
          | (currentMap, None) =>
              match parseValueFiles rest w1 with
              | (inl docs, w2) => (inl (currentMap :: docs), w2)
              | (inr err, w2) => (inr err, w2)
              end
          end
      end
  end.

End ValueFiles.

(** Two value files, the second one on standard input, and a plain
    expression. *)
Definition filesThenValue : Options :=
  {| ValueFiles := ["f.yaml"; " - "]; StringValues := []; Values := ["a=1"];
     FileValues := []; JSONValues := []; LiteralValues := [] |}.

(** Value files only. *)
Definition filesOnly : Options :=
  {| ValueFiles := ["f.yaml"; " - "]; StringValues := []; Values := [];
     FileValues := []; JSONValues := []; LiteralValues := [] |}.

(** * Proofs *)

(** ** The deep merge on documents *)

Lemma copyMap_id (a : gmap string val) : copyMap a = a.
Proof.
  unfold copyMap.
  apply (map_fold_weak_ind (λ r m, r = m)); [done|].
  intros i x m r _ ->. done.
Qed.

Lemma mergeEntry_slot k v out :
  mergeEntry k v out = <[k := mergeSlot (out !! k) v]> out.
Proof.
  unfold mergeEntry, mergeSlot.
  destruct (out !! k) as [[]|], v; done.
Qed.

(** [mergeMaps] is the two loops of the source. *)
Lemma mergeMaps_unfold (a b : gmap string val) :
  mergeMaps a b = map_fold mergeEntry (copyMap a) b.
Proof.
  unfold mergeMaps. cbn [mergeInto].
  rewrite !map_fold_foldr. generalize (copyMap a).
  induction (map_to_list b) as [|[k v] l IH]; intros out; [done|].
  cbn [foldr]. rewrite IH. unfold uncurry at 1 3. cbn [fst snd].
  generalize (foldr (uncurry mergeEntry) out l). intros g.
  destruct v; try reflexivity.
  unfold mergeEntry. cbn [asMap].
  destruct (g !! k) as [[]|]; reflexivity.
Qed.

Lemma fold_mergeEntry_lookup (out b : gmap string val) (k : string) :
  map_fold mergeEntry out b !! k =
  match b !! k with
  | Some v => Some (mergeSlot (out !! k) v)
  | None => out !! k
  end.
Proof.
  revert k.
  apply (map_fold_weak_ind (λ r m, ∀ k,
    r !! k = match m !! k with
             | Some v => Some (mergeSlot (out !! k) v)
             | None => out !! k
             end)).
  - intros k. by rewrite lookup_empty.
  - intros i x m r Hi IH k. rewrite mergeEntry_slot.
    destruct (decide (i = k)) as [->|Hne].
    + rewrite !lookup_insert_eq. rewrite IH, Hi. done.
    + rewrite !lookup_insert_ne by done. apply IH.
Qed.

Lemma mergeMaps_lookup (a b : gmap string val) (k : string) :
  mergeMaps a b !! k =
  match b !! k with
  | Some v => Some (mergeSlot (a !! k) v)
  | None => a !! k
  end.
Proof.
  rewrite mergeMaps_unfold, fold_mergeEntry_lookup, copyMap_id. done.
Qed.

Lemma val_size_VMap (m : gmap string val) :
  val_size (VMap m) = S (map_fold (λ _ x acc, val_size x + acc) 0 m).
Proof. reflexivity. Qed.

Lemma val_size_lookup (m : gmap string val) k v :
  m !! k = Some v → val_size v < val_size (VMap m).
Proof.
  intros Hk. rewrite val_size_VMap.
  rewrite (map_fold_delete_L _ _ k v m); [lia| |done].
  intros. lia.
Qed.

Lemma doc_size_lookup (m m' : gmap string val) k :
  m !! k = Some (VMap m') → doc_size m' < doc_size m.
Proof. apply val_size_lookup. Qed.

(** Induction on documents: a property holds of a document when it holds
    of every document nested directly under one of its keys. *)
Lemma doc_ind (P : gmap string val → Prop) :
  (∀ m, (∀ k m', m !! k = Some (VMap m') → P m') → P m) →
  ∀ m, P m.
Proof.
  intros step m.
  remember (doc_size m) as n eqn:Hn. revert m Hn.
  induction (lt_wf n) as [n _ IH]. intros m ->.
  apply step. intros k m' Hk.
  eapply IH; [eapply doc_size_lookup, Hk | reflexivity].
Qed.

(** C1. For documents A (existing) and B (incoming) and every key: a key
    of A that B lacks keeps A's value, a key of B that A lacks takes B's
    value, and a key of both holds the recursive merge when both values are
    nested documents and B's value otherwise. *)
Theorem mergeMaps_deep_merge (A B : gmap string val) (k : string) :
  (B !! k = None → mergeMaps A B !! k = A !! k) ∧
  (A !! k = None → mergeMaps A B !! k = B !! k) ∧
  (∀ x y, A !! k = Some x → B !! k = Some y →
     mergeMaps A B !! k =
       Some (match asMap x, asMap y with
             | Some ma, Some mb => VMap (mergeMaps ma mb)
             | _, _ => y
             end)).
Proof.
  rewrite mergeMaps_lookup. repeat split.
  - by intros ->.
  - intros ->. by destruct (B !! k) as [[]|].
  - intros x y -> ->. by destruct x, y.
Qed.

(** C8. The empty document is a left and a right identity of the merge. *)
Theorem mergeMaps_empty_identity (A : gmap string val) :
  mergeMaps A ∅ = A ∧ mergeMaps ∅ A = A.
Proof.
  split; apply map_eq; intros k; rewrite mergeMaps_lookup, lookup_empty.
  - done.
  - by destruct (A !! k) as [[]|].
Qed.

(** C9. Merging a document with itself gives the document back. *)
Theorem mergeMaps_idempotent (A : gmap string val) :
  mergeMaps A A = A.
Proof.
  induction A as [A IH] using doc_ind.
  apply map_eq; intros k. rewrite mergeMaps_lookup.
  destruct (A !! k) as [v|] eqn:Hk; [|done].
  destruct v; try done. simpl. by rewrite (IH k m Hk).
Qed.
(** ** The deep merge on the store *)

Lemma storeKey_lookup_eq (h : heap) l k v :
  storeKey h l k v !! l = insert k v <$> h !! l.
Proof. apply lookup_alter_eq. Qed.

Lemma storeKey_lookup_ne (h : heap) l l' k v :
  l ≠ l' → storeKey h l k v !! l' = h !! l'.
Proof. intros. by apply lookup_alter_ne. Qed.

Lemma storeKey_delete (h : heap) l k v :
  delete l (storeKey h l k v) = delete l h.
Proof. apply delete_alter_eq. Qed.

Lemma copyRange_lookup_ne out la (h : heap) l :
  out ≠ l → copyRange out la h !! l = h !! l.
Proof.
  intros Hne. revert h. unfold copyRange.
  induction la as [|[k v] la IH]; intros h; simpl; [done|].
  rewrite IH. by apply storeKey_lookup_ne.
Qed.

Lemma copyRange_delete out la (h : heap) :
  delete out (copyRange out la h) = delete out h.
Proof.
  revert h. unfold copyRange.
  induction la as [|[k v] la IH]; intros h; simpl; [done|].
  rewrite IH. apply storeKey_delete.
Qed.

Lemma copyRange_lookup_eq out la (h : heap) m0 :
  h !! out = Some m0 →
  copyRange out la h !! out = Some (foldl (λ m kv, <[kv.1 := kv.2]> m) m0 la).
Proof.
  revert h m0. unfold copyRange.
  induction la as [|[k v] la IH]; intros h m0 Hout; simpl; [done|].
  apply IH. rewrite storeKey_lookup_eq, Hout. done.
Qed.

Lemma foldl_insert_union {V} (l : list (string * V)) (m0 : gmap string V) :
  NoDup l.*1 →
  foldl (λ m kv, <[kv.1 := kv.2]> m) m0 l = list_to_map l ∪ m0.
Proof.
  revert m0. induction l as [|[k v] l IH]; intros m0 Hnd; simpl.
  - by rewrite (left_id_L ∅ (∪)).
  - inversion_clear Hnd as [|? ? Hk Hnd'].
    rewrite IH by done. rewrite <-insert_union_l.
    rewrite insert_union_r; [done|].
    by apply not_elem_of_list_to_map_1.
Qed.

(** Whatever the order of the visit, the first loop leaves in [out] the
    entries of [a]. *)
Lemma copy_any_order {V} (la : list (string * V)) (ma : gmap string V) :
  la ≡ₚ map_to_list ma →
  foldl (λ m kv, <[kv.1 := kv.2]> m) ∅ la = ma.
Proof.
  intros Hp.
  assert (NoDup la.*1) as Hnd.
  { rewrite Hp. apply NoDup_fst_map_to_list. }
  rewrite foldl_insert_union by done.
  rewrite (right_id_L ∅ (∪)).
  rewrite (list_to_map_proper la (map_to_list ma)) by done.
  apply list_to_map_to_list.
Qed.

Lemma range_b_frame out lb h h' :
  range_b out lb h h' →
  ∀ mo, h !! out = Some mo →
    delete out h ⊆ delete out h' ∧
    ∃ mo', h' !! out = Some mo' ∧ dom mo' = dom mo ∪ list_to_set lb.*1.
Proof.
  revert out lb h h'.
  apply (range_b_mut
    (λ h a b h' out, h !! out = None ∧ h ⊆ h' ∧ is_Some (h' !! out))
    (λ out lb h h', ∀ mo, h !! out = Some mo →
       delete out h ⊆ delete out h' ∧
       ∃ mo', h' !! out = Some mo' ∧ dom mo' = dom mo ∪ list_to_set lb.*1)).
  - (* a call *)
    intros h a b ma mb la lb out h' Ha Hb Hfresh Hla Hlb _ IH.
    destruct (IH (foldl (λ m kv, <[kv.1 := kv.2]> m) ∅ la)) as (Hsub & mo' & Hmo' & _).
    { apply copyRange_lookup_eq, lookup_insert_eq. }
    split; [done|]. split; [|eauto].
    rewrite copyRange_delete, delete_insert_eq, (delete_id h out) in Hsub by done.
    etrans; [exact Hsub|]. apply delete_subseteq.
  - (* end of the loop *)
    intros out h mo Hmo. split; [done|].
    exists mo. split; [done|]. set_solver.
  - (* an entry merged by a recursive call *)
    intros out k vr lb h mo bvr h1 r h' Hmo Hk _ (Hr & Hsub1 & _) _ IH mo0 Hmo0.
    rewrite Hmo in Hmo0. injection Hmo0 as <-.
    assert (h1 !! out = Some mo) as Hmo1 by (eapply lookup_weaken; eauto).
    destruct (IH (<[k := HMap (Some r)]> mo)) as (Hsub & mo' & Hmo' & Hdom).
    { rewrite storeKey_lookup_eq, Hmo1. done. }
    split.
    + rewrite storeKey_delete in Hsub.
      etrans; [|exact Hsub]. by apply delete_mono.
    + exists mo'. split; [done|]. rewrite Hdom, dom_insert_L. set_solver.
  - (* an entry stored as it is *)
    intros out k v lb h mo h' Hmo _ _ IH mo0 Hmo0.
    rewrite Hmo in Hmo0. injection Hmo0 as <-.
    destruct (IH (<[k := v]> mo)) as (Hsub & mo' & Hmo' & Hdom).
    { rewrite storeKey_lookup_eq, Hmo. done. }
    split.
    + by rewrite storeKey_delete in Hsub.
    + exists mo'. split; [done|]. rewrite Hdom, dom_insert_L. set_solver.
Qed.

Lemma mergeMaps_heap_grows h a b h' out :
  mergeMaps_heap h a b h' out → h !! out = None ∧ h ⊆ h'.
Proof.
  intros Hrun. inversion Hrun as [? ? ? ma mb la lb ? ? Ha Hb Hfresh Hla Hlb Hloop]; subst.
  split; [done|].
  destruct (range_b_frame _ _ _ _ Hloop (foldl (λ m kv, <[kv.1 := kv.2]> m) ∅ la))
    as (Hsub & _).
  { apply copyRange_lookup_eq, lookup_insert_eq. }
  rewrite copyRange_delete, delete_insert_eq, (delete_id h out) in Hsub by done.
  etrans; [exact Hsub|]. apply delete_subseteq.
Qed.

Lemma mergeMaps_heap_keys h a b h' out ma mb :
  mergeMaps_heap h a b h' out →
  readMap h a = Some ma → readMap h b = Some mb →
  ∃ mo, h' !! out = Some mo ∧ dom mo = dom ma ∪ dom mb.
Proof.
  intros Hrun Ha Hb.
  inversion Hrun as [? ? ? ma' mb' la lb ? ? Ha' Hb' Hfresh Hla Hlb Hloop]; subst.
  rewrite Ha in Ha'. injection Ha' as <-.
  rewrite Hb in Hb'. injection Hb' as <-.
  destruct (range_b_frame _ _ _ _ Hloop (foldl (λ m kv, <[kv.1 := kv.2]> m) ∅ la))
    as (_ & mo' & Hmo' & Hdom).
  { apply copyRange_lookup_eq, lookup_insert_eq. }
  exists mo'. split; [done|]. rewrite Hdom.
  rewrite (copy_any_order la ma) by done. f_equal.
  rewrite Hlb. apply set_eq. intros k.
  rewrite elem_of_list_to_set, elem_of_dom, list_elem_of_fmap.
  split.
  - intros ([k' v] & -> & Hin). apply elem_of_map_to_list in Hin. eauto.
  - intros [v Hv]. exists (k, v). split; [done|]. by apply elem_of_map_to_list.
Qed.
(** *** Stored values and the documents they denote *)

Lemma readMap_weaken (h h' : heap) r hm :
  h ⊆ h' → readMap h r = Some hm → readMap h' r = Some hm.
Proof.
  intros Hsub. destruct r as [l|]; simpl; [|done].
  intros Hl. by eapply lookup_weaken.
Qed.

Lemma reps_weaken (h h' : heap) hv v :
  h ⊆ h' → reps h hv v → reps h' hv v.
Proof.
  intros Hsub Hr.
  induction Hr as [| | | | |hs vs Hlen _ IH|r hm m Hread Hdom _ IH];
    try by constructor.
  econstructor; eauto using readMap_weaken.
Qed.

Lemma reps_entries_weaken (h h' : heap) hm m :
  h ⊆ h' → reps_entries h hm m → reps_entries h' hm m.
Proof.
  intros Hsub [Hdom Hent]. split; [done|].
  intros k hv v Hhv Hv. eapply reps_weaken; eauto.
Qed.

Lemma reps_entries_insert (h : heap) hm m k hv v :
  reps_entries h hm m → reps h hv v →
  reps_entries h (<[k := hv]> hm) (<[k := v]> m).
Proof.
  intros [Hdom Hent] Hr. split.
  - by rewrite !dom_insert_L, Hdom.
  - intros k' hv' v'. destruct (decide (k = k')) as [<-|Hne].
    + rewrite !lookup_insert_eq. by intros [= <-] [= <-].
    + rewrite !lookup_insert_ne by done. apply Hent.
Qed.

Lemma reps_entries_lookup (h : heap) hm m k hv :
  reps_entries h hm m → hm !! k = Some hv →
  ∃ v, m !! k = Some v ∧ reps h hv v.
Proof.
  intros [Hdom Hent] Hk.
  assert (is_Some (m !! k)) as [v Hv].
  { apply elem_of_dom. rewrite <-Hdom. apply elem_of_dom. eauto. }
  eauto.
Qed.

Lemma reps_entries_lookup_None (h : heap) hm m k :
  reps_entries h hm m → hm !! k = None → m !! k = None.
Proof.
  intros [Hdom _] Hk. apply not_elem_of_dom. rewrite <-Hdom.
  by apply not_elem_of_dom.
Qed.

Lemma reps_doc_entries (h : heap) r m :
  reps_doc h r m ↔ ∃ hm, readMap h r = Some hm ∧ reps_entries h hm m.
Proof.
  split.
  - intros Hr. inversion Hr; subst. eexists; split; [done|]. by split.
  - intros (hm & Hread & Hdom & Hent). by econstructor.
Qed.

Lemma reps_HMap_inv (h : heap) r v :
  reps h (HMap r) v → ∃ m, v = VMap m ∧ reps_doc h r m.
Proof. intros Hr. inversion Hr; subst. eauto. Qed.

Lemma reps_VMap_inv (h : heap) hv m :
  reps h hv (VMap m) → ∃ r, hv = HMap r.
Proof. intros Hr. inversion Hr; subst. eauto. Qed.

Lemma subseteq_storeKey (g h : heap) out k v :
  g ⊆ h → g !! out = None → g ⊆ storeKey h out k v.
Proof.
  intros Hsub Hout. apply map_subseteq_spec. intros l x Hl.
  rewrite storeKey_lookup_ne by congruence.
  by eapply lookup_weaken.
Qed.

(** *** The second loop on documents, in any order *)

Lemma mergeKeys_cons k ks (out b : gmap string val) :
  mergeKeys (k :: ks) out b =
  mergeKeys ks (match b !! k with
                | Some v => mergeEntry k v out
                | None => out
                end) b.
Proof. reflexivity. Qed.

Lemma mergeKeys_lookup ks (out b : gmap string val) k :
  NoDup ks →
  mergeKeys ks out b !! k =
  if decide (k ∈ ks) then
    match b !! k with
    | Some v => Some (mergeSlot (out !! k) v)
    | None => out !! k
    end
  else out !! k.
Proof.
  revert out. induction ks as [|k0 ks IH]; intros out Hnd.
  - done.
  - inversion_clear Hnd as [|? ? Hk0 Hnd'].
    rewrite mergeKeys_cons, IH by done.
    destruct (decide (k = k0)) as [->|Hne].
    + destruct (decide (k0 ∈ ks)) as [?|_]; [done|].
      destruct (decide (k0 ∈ k0 :: ks)) as [_|Hn];
        [|exfalso; apply Hn, list_elem_of_here].
      destruct (b !! k0); [|done].
      by rewrite mergeEntry_slot, lookup_insert_eq.
    + assert (match b !! k0 with Some v => mergeEntry k0 v out | None => out end
                !! k = out !! k) as ->.
      { destruct (b !! k0); [|done].
        by rewrite mergeEntry_slot, lookup_insert_ne. }
      destruct (decide (k ∈ ks)) as [Hin|Hnin];
        destruct (decide (k ∈ k0 :: ks)) as [Hin'|Hnin']; try done.
      * exfalso. apply Hnin'. by apply list_elem_of_further.
      * exfalso. apply elem_of_cons in Hin' as [?|?]; done.
Qed.

(** Visiting the keys of [b] once each, in any order, is [mergeMaps]. *)
Lemma mergeKeys_mergeMaps ks (a b : gmap string val) :
  NoDup ks → (∀ k, k ∈ ks ↔ is_Some (b !! k)) →
  mergeKeys ks a b = mergeMaps a b.
Proof.
  intros Hnd Hks. apply map_eq. intros k.
  rewrite mergeKeys_lookup, mergeMaps_lookup by done.
  destruct (decide (k ∈ ks)) as [Hin|Hnin]; [done|].
  destruct (b !! k) eqn:Hk; [|done].
  exfalso. apply Hnin, Hks. eauto.
Qed.
(** *** Every run computes the merge of the documents *)

Lemma runs_refine :
  (∀ h a b h' out, mergeMaps_heap h a b h' out →
     ∀ g A B,
       g ⊆ h → reps_doc g a A → reps_doc g b B →
       ∃ g', grown g h g' h' ∧ reps_doc g' (Some out) (mergeMaps A B)) ∧
  (∀ out lb h h', range_b out lb h h' →
     ∀ g mo O B,
       g ⊆ h → g !! out = None → h !! out = Some mo →
       reps_entries g mo O →
       NoDup lb.*1 →
       (∀ k hv, (k, hv) ∈ lb → ∃ v, B !! k = Some v ∧ reps g hv v) →
       ∃ g' mo', grown g h g' h' ∧ g' !! out = None ∧ h' !! out = Some mo' ∧
                 reps_entries g' mo' (mergeKeys lb.*1 O B)).
Proof.
  apply mergeMaps_heap_range_b_ind.
  - (* a call *)
    intros h a b ma mb la lb out h' Ha Hb Hfresh Hla Hlb _ IH g A B Hg HA HB.
    apply reps_doc_entries in HA as (ma' & Ha' & HentA).
    apply reps_doc_entries in HB as (mb' & Hb' & HentB).
    rewrite (readMap_weaken _ _ _ _ Hg Ha') in Ha. injection Ha as ->.
    rewrite (readMap_weaken _ _ _ _ Hg Hb') in Hb. injection Hb as ->.
    assert (g !! out = None) as Hgout.
    { destruct (g !! out) eqn:E; [|done].
      by rewrite (lookup_weaken _ _ _ _ E Hg) in Hfresh. }
    set (h1 := copyRange out la (<[out := ∅]> h)) in *.
    assert (g ⊆ h1) as Hg1.
    { apply map_subseteq_spec. intros l x Hl. unfold h1.
      assert (out ≠ l) by congruence.
      rewrite copyRange_lookup_ne, lookup_insert_ne by done.
      by eapply lookup_weaken. }
    assert (h1 !! out = Some ma) as Hout1.
    { unfold h1. erewrite copyRange_lookup_eq by apply lookup_insert_eq.
      by rewrite (copy_any_order la ma). }
    assert (NoDup lb.*1) as Hnd.
    { rewrite Hlb. apply NoDup_fst_map_to_list. }
    destruct (IH g ma A B Hg1 Hgout Hout1 HentA Hnd) as
      (g' & mo' & (Hgg' & Hg'h' & Hnew) & Hg'out & Hh'out & Hent').
    { intros k hv Hin. rewrite Hlb in Hin. apply elem_of_map_to_list in Hin.
      eapply reps_entries_lookup; eauto. }
    rewrite mergeKeys_mergeMaps in Hent'; [|done|].
    2:{ intros k. rewrite Hlb. rewrite list_elem_of_fmap. split.
        - intros ([k' hv] & -> & Hin). apply elem_of_map_to_list in Hin.
          destruct (reps_entries_lookup _ _ _ _ _ HentB Hin) as (v & Hv & _).
          eauto.
        - intros Hk. destruct HentB as [Hdom _].
          apply elem_of_dom in Hk. rewrite <-Hdom in Hk.
          apply elem_of_dom in Hk as [hv Hhv].
          exists (k, hv). split; [done|]. by apply elem_of_map_to_list. }
    exists (<[out := mo']> g'). split; [split; [|split]|].
    + etrans; [exact Hgg'|]. by apply insert_subseteq.
    + by apply insert_subseteq_l.
    + intros l. destruct (decide (l = out)) as [->|Hne]; [by right|].
      rewrite lookup_insert_ne by done. intros Hl.
      destruct (Hnew l Hl) as [?|Hl1]; [by left|right].
      unfold h1 in Hl1.
      by rewrite copyRange_lookup_ne, lookup_insert_ne in Hl1.
    + apply reps_doc_entries. exists mo'. split.
      * simpl. apply lookup_insert_eq.
      * eapply reps_entries_weaken; [|exact Hent']. by apply insert_subseteq.
  - (* end of the loop *)
    intros out h g mo O B Hg Hgout Hout Hent _ _.
    exists g, mo. split; [split; [done|split; [done|eauto]]|done].
  - (* an entry merged by a recursive call *)
    intros out k vr lb h mo bvr h1 r h' Hmo Hk Hcall IHcall _ IHloop
      g mo0 O B Hg Hgout Hout Hent Hnd Hlb.
    rewrite Hmo in Hout. injection Hout as <-.
    destruct (reps_entries_lookup _ _ _ _ _ Hent Hk) as (ov & HOk & Hov).
    apply reps_HMap_inv in Hov as (BV & -> & HBV).
    destruct (Hlb k (HMap vr)) as (v & HBk & Hv); [apply list_elem_of_here|].
    apply reps_HMap_inv in Hv as (V & -> & HV).
    destruct (IHcall g BV V Hg HBV HV) as (g1 & (Hgg1 & Hg1h1 & Hnew1) & Hr).
    destruct (mergeMaps_heap_grows _ _ _ _ _ Hcall) as [Hrfresh Hhh1].
    assert (g1 !! out = None) as Hg1out.
    { destruct (g1 !! out) eqn:E; [|done].
      destruct (Hnew1 out) as [[? ?]|?]; [eauto|congruence..]. }
    assert (h1 !! out = Some mo) as Hout1 by (eapply lookup_weaken; eauto).
    inversion_clear Hnd as [|? ? Hknew Hnd'].
    destruct (IHloop g1 (<[k := HMap (Some r)]> mo)
                (mergeEntry k (VMap V) O) B) as
      (g' & mo' & (Hg1g' & Hg'h' & Hnew) & Hg'out & Hh'out & Hent'); try done.
    { by apply subseteq_storeKey. }
    { by rewrite storeKey_lookup_eq, Hout1. }
    { rewrite mergeEntry_slot, HOk. simpl.
      apply reps_entries_insert; [|done].
      eapply reps_entries_weaken; eauto. }
    { intros k' hv' Hin.
      destruct (Hlb k' hv') as (v' & ? & ?); [by apply list_elem_of_further|].
      exists v'. split; [done|]. eapply reps_weaken; eauto. }
    exists g', mo'. split; [split; [|split]|split; [|split]]; try done.
    + by etrans.
    + intros l Hl. destruct (Hnew l Hl) as [Hl1|Hl2].
      * apply Hnew1 in Hl1. done.
      * right. destruct (decide (out = l)) as [<-|Hne].
        { by rewrite storeKey_lookup_eq, Hout1 in Hl2. }
        rewrite storeKey_lookup_ne in Hl2 by done.
        destruct (h !! l) eqn:E; [|done].
        by rewrite (lookup_weaken _ _ _ _ E Hhh1) in Hl2.
    + cbn [fmap list_fmap fst]. by rewrite mergeKeys_cons, HBk.
  - (* an entry stored as it is *)
    intros out k v lb h mo h' Hmo Hboth _ IHloop
      g mo0 O B Hg Hgout Hout Hent Hnd Hlb.
    rewrite Hmo in Hout. injection Hout as <-.
    destruct (Hlb k v) as (pv & HBk & Hpv); [apply list_elem_of_here|].
    inversion_clear Hnd as [|? ? Hknew Hnd'].
    assert (mergeEntry k pv O = <[k := pv]> O) as Hentry.
    { rewrite mergeEntry_slot. f_equal. unfold mergeSlot.
      destruct (O !! k) as [[]|] eqn:HOk; try done.
      destruct pv; try done.
      apply reps_VMap_inv in Hpv as [r ->].
      destruct (mo !! k) as [hv|] eqn:Hmok.
      - destruct (reps_entries_lookup _ _ _ _ _ Hent Hmok) as (ov & HOk' & Hov).
        rewrite HOk in HOk'. injection HOk' as <-.
        apply reps_VMap_inv in Hov as [r' ->]. done.
      - by rewrite (reps_entries_lookup_None _ _ _ _ Hent Hmok) in HOk. }
    destruct (IHloop g (<[k := v]> mo) (mergeEntry k pv O) B) as
      (g' & mo' & (Hgg' & Hg'h' & Hnew) & Hg'out & Hh'out & Hent'); try done.
    { by apply subseteq_storeKey. }
    { by rewrite storeKey_lookup_eq, Hmo. }
    { rewrite Hentry. by apply reps_entries_insert. }
    { intros k' hv' Hin. apply Hlb. by apply list_elem_of_further. }
    exists g', mo'. split; [split; [|split]|split; [|split]]; try done.
    + intros l Hl. destruct (Hnew l Hl) as [Hl1|Hl2]; [by left|right].
      destruct (decide (out = l)) as [<-|Hne].
      { by rewrite storeKey_lookup_eq, Hmo in Hl2. }
      by rewrite storeKey_lookup_ne in Hl2.
    + cbn [fmap list_fmap fst]. by rewrite mergeKeys_cons, HBk.
Qed.

Lemma mergeMaps_heap_refines h a b h' out g A B :
  mergeMaps_heap h a b h' out →
  g ⊆ h → reps_doc g a A → reps_doc g b B →
  ∃ g', grown g h g' h' ∧ reps_doc g' (Some out) (mergeMaps A B).
Proof. intros Hrun. by apply (proj1 runs_refine). Qed.

Lemma mergeMaps_heap_result h a b h' out A B :
  mergeMaps_heap h a b h' out →
  reps_doc h a A → reps_doc h b B →
  reps_doc h' (Some out) (mergeMaps A B).
Proof.
  intros Hrun HA HB.
  destruct (mergeMaps_heap_refines _ _ _ _ _ h A B Hrun) as
    (g' & (_ & Hsub & _) & Hr); [done..|].
  eapply reps_weaken; eauto.
Qed.

(** *** A run exists when both arguments denote documents *)

Lemma range_b_exists (B : gmap string val) out :
  (∀ k V, B !! k = Some (VMap V) →
     ∀ (h g : heap) a b A, g ⊆ h → reps_doc g a A → reps_doc g b V →
       ∃ h' r, mergeMaps_heap h a b h' r) →
  ∀ lb (h g : heap) mo O,
    g ⊆ h → g !! out = None → h !! out = Some mo →
    reps_entries g mo O →
    (∀ k hv, (k, hv) ∈ lb → ∃ v, B !! k = Some v ∧ reps g hv v) →
    ∃ h', range_b out lb h h'.
Proof.
  intros IHB. induction lb as [|[k hv] lb IH];
    intros h g mo O Hg Hgout Hout Hent Hlb.
  - eexists. constructor.
  - destruct (Hlb k hv) as (pv & HBk & Hpv); [apply list_elem_of_here|].
    destruct (bothMaps (mo !! k) hv) eqn:Hboth.
    + destruct hv as [| | | | | |vr]; try done.
      destruct (mo !! k) as [[| | | | | |bvr]|] eqn:Hmok; try done.
      destruct (reps_entries_lookup _ _ _ _ _ Hent Hmok) as (ov & HOk & Hov).
      apply reps_HMap_inv in Hov as (BV & -> & HBV).
      apply reps_HMap_inv in Hpv as (V & -> & HV).
      destruct (IHB k V HBk h g bvr vr BV Hg HBV HV) as (h1 & r & Hcall).
      destruct (mergeMaps_heap_refines _ _ _ _ _ g BV V Hcall Hg HBV HV) as
        (g1 & (Hgg1 & Hg1h1 & Hnew1) & Hr).
      destruct (mergeMaps_heap_grows _ _ _ _ _ Hcall) as [Hrfresh Hhh1].
      assert (g1 !! out = None) as Hg1out.
      { destruct (g1 !! out) eqn:E; [|done].
        destruct (Hnew1 out) as [[? ?]|?]; [eauto|congruence..]. }
      assert (h1 !! out = Some mo) as Hout1 by (eapply lookup_weaken; eauto).
      destruct (IH (storeKey h1 out k (HMap (Some r))) g1
                  (<[k := HMap (Some r)]> mo)
                  (<[k := VMap (mergeMaps BV V)]> O)) as [h' Hloop].
      * by apply subseteq_storeKey.
      * done.
      * by rewrite storeKey_lookup_eq, Hout1.
      * apply reps_entries_insert; [|done]. eapply reps_entries_weaken; eauto.
      * intros k' hv' Hin.
        destruct (Hlb k' hv') as (v' & ? & ?); [by apply list_elem_of_further|].
        exists v'. split; [done|]. eapply reps_weaken; eauto.
      * exists h'. eapply range_b_merge; eauto.
    + destruct (IH (storeKey h out k hv) g (<[k := hv]> mo) (<[k := pv]> O))
        as [h' Hloop].
      * by apply subseteq_storeKey.
      * done.
      * by rewrite storeKey_lookup_eq, Hout.
      * by apply reps_entries_insert.
      * intros k' hv' Hin. apply Hlb. by apply list_elem_of_further.
      * exists h'. eapply range_b_set; eauto.
Qed.

Lemma mergeMaps_heap_exists (B : gmap string val) :
  ∀ (h g : heap) a b A,
    g ⊆ h → reps_doc g a A → reps_doc g b B →
    ∃ h' out, mergeMaps_heap h a b h' out.
Proof.
  induction B as [B IHB] using doc_ind.
  intros h g a b A Hg HA HB.
  apply reps_doc_entries in HA as (ma & Ha & HentA).
  apply reps_doc_entries in HB as (mb & Hb & HentB).
  set (out := fresh (dom h)).
  assert (h !! out = None) as Hfresh.
  { apply not_elem_of_dom, is_fresh. }
  assert (g !! out = None) as Hgout.
  { destruct (g !! out) eqn:E; [|done].
    by rewrite (lookup_weaken _ _ _ _ E Hg) in Hfresh. }
  destruct (range_b_exists B out IHB (map_to_list mb)
              (copyRange out (map_to_list ma) (<[out := ∅]> h)) g ma A)
    as [h' Hloop].
  - apply map_subseteq_spec. intros l x Hl.
    assert (out ≠ l) by congruence.
    rewrite copyRange_lookup_ne, lookup_insert_ne by done.
    by eapply lookup_weaken.
  - done.
  - erewrite copyRange_lookup_eq by apply lookup_insert_eq.
    by rewrite (copy_any_order (map_to_list ma) ma).
  - done.
  - intros k hv Hin. apply elem_of_map_to_list in Hin.
    eapply reps_entries_lookup; eauto.
  - exists h', out. econstructor; eauto using readMap_weaken.
Qed.

(** *** The computed run is a run *)

Lemma mergeMaps_exec_run fuel (h : heap) a b h' out :
  mergeMaps_exec fuel h a b = Some (h', out) →
  mergeMaps_heap h a b h' out.
Proof.
  revert h a b h' out. induction fuel as [|fuel IH]; intros h a b h' out; [done|].
  cbn [mergeMaps_exec].
  destruct (readMap h a) as [ma|] eqn:Ha; [|done].
  destruct (readMap h b) as [mb|] eqn:Hb; [|done].
  cbn [mbind option_bind].
  set (o := fresh (dom h)).
  set (F := λ (acc : option (gmap positive (gmap string hval)))
              (kv : string * hval), _).
  destruct (foldl F _ (map_to_list mb)) as [h2|] eqn:Hloop; [|done].
  intros [= <- <-].
  assert (∀ lb, foldl F None lb = None) as Hnone.
  { induction lb as [|kv lb IHlb]; [done|]. apply IHlb. }
  assert (∀ lb h0 h1, foldl F (Some h0) lb = Some h1 → range_b o lb h0 h1)
    as Hrange.
  { induction lb as [|[k v] lb IHlb]; intros h0 h1.
    - intros [= <-]. constructor.
    - cbn [foldl]. destruct (F (Some h0) (k, v)) as [h0'|] eqn:Hstep;
        [|by rewrite Hnone].
      intros Hrest. apply IHlb in Hrest.
      unfold F in Hstep. cbn [mbind option_bind fst snd] in Hstep.
      destruct (h0 !! o) as [mo|] eqn:Hmo; [|done].
      cbn [mbind option_bind] in Hstep.
      destruct (bothMaps (mo !! k) v) eqn:Hboth.
      + destruct v as [| | | | | |vr]; try done.
        destruct (mo !! k) as [[| | | | | |bvr]|] eqn:Hk; try done.
        destruct (mergeMaps_exec fuel h0 bvr vr) as [[h3 r]|] eqn:Hcall; [|done].
        injection Hstep as <-.
        eapply range_b_merge; eauto.
      + assert (h0' = storeKey h0 o k v) as ->.
        { destruct v as [| | | | | |vr]; try by injection Hstep.
          destruct (mo !! k) as [[| | | | | |bvr]|]; try by injection Hstep.
          done. }
        eapply range_b_set; eauto. }
  econstructor; eauto.
  apply not_elem_of_dom, is_fresh.
Qed.

(** ** readFile *)


(** ** The loops of MergeValues *)

Section MergeValues_facts.
Context `{libs : Libs}.

Lemma rangeLoop_app {A S} (body : A → S → M S) xs ys s w :
  rangeLoop body (xs ++ ys) s w =
  (s' ← rangeLoop body xs s; rangeLoop body ys s') w.
Proof.
  revert s w. induction xs as [|x xs IH]; intros s w; [done|].
  cbn [app rangeLoop]. unfold mbind, M_bind.
  destruct (body x s w) as [[s1|r] w1]; [|done].
  rewrite IH. done.
Qed.

Lemma rangeLoop_fmap {A B S} (f : A → B) (body : B → S → M S)
    (body' : A → S → M S) xs s w :
  (∀ x, body (f x) = body' x) →
  rangeLoop body (f <$> xs) s w = rangeLoop body' xs s w.
Proof.
  intros Hbody. revert s w. induction xs as [|x xs IH]; intros s w; [done|].
  cbn [fmap list_fmap rangeLoop]. unfold mbind, M_bind. rewrite Hbody.
  destruct (body' x s w) as [[s1|r] w1]; [|done].
  apply IH.
Qed.

(** One loop of [MergeValues] is the pass over its part of the items. *)
Ltac loop_of f body :=
  rewrite rangeLoop_app; unfold mbind, M_bind;
  rewrite (rangeLoop_fmap f step body) by done;
  match goal with
  | |- context [rangeLoop body ?l ?s ?w] =>
      destruct (rangeLoop body l s w) as [[?|?] ?]; [|done]
  end.

(** The six loops are one pass over [items opts]. *)
Lemma MergeValues_items opts w :
  MergeValues opts w =
  call (base ← rangeLoop step (items opts) ∅; mret (Some base, None)) w.
Proof.
  unfold MergeValues, items, call, mbind, M_bind.
  loop_of IValueFile valueFileBody.
  loop_of IJSONValue jsonValueBody.
  loop_of IValue valueBody.
  loop_of IStringValue stringValueBody.
  loop_of IFileValue fileValueBody.
  by rewrite (rangeLoop_fmap ILiteralValue step literalValueBody).
Qed.

(** A loop returns from the first item whose body returns. *)
Lemma rangeLoop_return {A S} (body : A → S → M S) xs s w r w' :
  rangeLoop body xs s w = (inr r, w') →
  ∃ pre x post s1 w1,
    xs = pre ++ x :: post ∧
    rangeLoop body pre s w = (inl s1, w1) ∧
    body x s1 w1 = (inr r, w').
Proof.
  revert s w. induction xs as [|x xs IH]; intros s w; [done|].
  cbn [rangeLoop]. unfold mbind, M_bind.
  destruct (body x s w) as [[s1|r1] w1] eqn:Hx.
  - intros Hrest. destruct (IH _ _ Hrest) as (pre & y & post & s2 & w2 & -> & Hpre & Hy).
    exists (x :: pre), y, post, s2, w2. split; [done|]. split; [|done].
    cbn [rangeLoop]. unfold mbind, M_bind. by rewrite Hx.
  - intros [= <- <-]. exists [], x, xs, s, w. done.
Qed.

Lemma rangeLoop_return_at {A S} (body : A → S → M S) pre x post s w s1 w1 r w' :
  rangeLoop body pre s w = (inl s1, w1) →
  body x s1 w1 = (inr r, w') →
  rangeLoop body (pre ++ x :: post) s w = (inr r, w').
Proof.
  intros Hpre Hx. rewrite rangeLoop_app. unfold mbind, M_bind.
  rewrite Hpre. cbn [rangeLoop]. unfold mbind, M_bind. by rewrite Hx.
Qed.

End MergeValues_facts.

(** ** Errors of MergeValues *)

Lemma prefix_app_l (x s b : string) :
  String.prefix x s = true → String.prefix x (s +:+ b) = true.
Proof.
  revert s. induction x as [|c x IH]; intros s;
    [intros _; by destruct (s +:+ b)|].
  destruct s as [|c' s]; [done|]. simpl.
  destruct (ascii_dec c c'); [apply IH|done].
Qed.

Lemma prefix_refl (x : string) : String.prefix x x = true.
Proof.
  induction x as [|c x IH]; [done|]. simpl.
  destruct (ascii_dec c c); done.
Qed.

Lemma Contains_prefix (s x : string) :
  String.prefix x s = true → Contains s x = true.
Proof. intros Hp. destruct s; cbn [Contains]; by rewrite Hp. Qed.

Lemma Contains_app_l (s b x : string) :
  Contains s x = true → Contains (s +:+ b) x = true.
Proof.
  induction s as [|c s IH].
  - cbn [Contains]. destruct (String.prefix x "") eqn:Hp; [|done].
    intros _. apply Contains_prefix. exact (prefix_app_l x "" b Hp).
  - cbn [Contains].
    destruct (String.prefix x (String c s)) eqn:Hp.
    + intros _. apply Contains_prefix. exact (prefix_app_l x (String c s) b Hp).
    + intros Hs. change (String c s +:+ b) with (String c (s +:+ b)).
      cbn [Contains]. rewrite (IH Hs). by case_match.
Qed.

Lemma Contains_app_r (a s x : string) :
  Contains s x = true → Contains (a +:+ s) x = true.
Proof.
  intros Hs. induction a as [|c a IH]; [done|].
  change (String c a +:+ s) with (String c (a +:+ s)).
  cbn [Contains]. rewrite IH. by case_match.
Qed.

Lemma Contains_refl (x : string) : Contains x x = true.
Proof. apply Contains_prefix, prefix_refl. Qed.

Section MergeValues_errors.
Context `{libs : Libs}.

(** A body that returns gives no document, and gives an error. *)
Lemma step_return x base w r w' :
  step x base w = (inr r, w') →
  ∃ e, r = (None, Some e) ∧ returns_error x base w e w'.
Proof.
  destruct x as [filePath|value|value|value|value|value]; cbn [step returns_error].
  - unfold valueFileBody, mbind, M_bind, io, Return, mret, M_ret.
    destruct (readFile filePath w) as [[bytes [e|]] w1].
    + intros [= <- <-]. eauto.
    + destruct (yaml_Unmarshal bytes ∅) as [currentMap [u|]] eqn:Hy; [|done].
      intros [= <- <-]. eexists. split; [done|]. right. eauto 10.
  - unfold jsonValueBody, Return, mret, M_ret.
    destruct (strvals_ParseJSON value base) as [base' [u|]]; [|done].
    intros [= <- <-]. eauto 10.
  - unfold valueBody, Return, mret, M_ret.
    destruct (strvals_ParseInto value base) as [base' [u|]]; [|done].
    intros [= <- <-]. eauto 10.
  - unfold stringValueBody, Return, mret, M_ret.
    destruct (strvals_ParseIntoString value base) as [base' [u|]]; [|done].
    intros [= <- <-]. eauto 10.
  - unfold fileValueBody, mbind, M_bind, io, Return, mret, M_ret.
    destruct (runPlan reader (strvals_ParseIntoFile value base) w)
      as [[base' [u|]] w1]; [|done].
    intros [= <- <-]. eauto 10.
  - unfold literalValueBody, Return, mret, M_ret.
    destruct (strvals_ParseLiteralInto value base) as [base' [u|]]; [|done].
    intros [= <- <-]. eauto 10.
Qed.

(** An error of [MergeValues] is the error of one item, the first whose
    body returns. *)
Lemma MergeValues_error_inv opts w d e w' :
  MergeValues opts w = ((d, Some e), w') →
  d = None ∧
  ∃ pre x post base w1,
    items opts = pre ++ x :: post ∧
    rangeLoop step pre ∅ w = (inl base, w1) ∧
    step x base w1 = (inr (None, Some e), w').
Proof.
  rewrite MergeValues_items. unfold call, mbind, M_bind, mret, M_ret.
  destruct (rangeLoop step (items opts) ∅ w) as [[base|r] w1] eqn:Hloop; [done|].
  intros [= -> <-].
  destruct (rangeLoop_return _ _ _ _ _ _ Hloop)
    as (pre & x & post & base & w2 & Hitems & Hpre & Hx).
  destruct (step_return _ _ _ _ _ Hx) as (e' & [= -> ->] & _).
  split; [done|]. eauto 10.
Qed.

Lemma MergeValues_error_at opts w pre x post base w1 r w' :
  items opts = pre ++ x :: post →
  rangeLoop step pre ∅ w = (inl base, w1) →
  step x base w1 = (inr r, w') →
  MergeValues opts w = (r, w').
Proof.
  intros Hitems Hpre Hx. rewrite MergeValues_items, Hitems.
  unfold call, mbind, M_bind.
  by rewrite (rangeLoop_return_at _ _ _ post _ _ _ _ _ _ Hpre Hx).
Qed.


(** Apart from the JSON expressions, the error raised by the read or by
    the package is kept: it is the returned error or a cause of it. *)
Lemma step_error_kept x base w e w' :
  step x base w = (inr (None, Some e), w') →
  isJSONValue x = false →
  ∃ u, raised x base w = Some u ∧ u ∈ causes e.
Proof.
  intros Hx Hjson.
  destruct (step_return _ _ _ _ _ Hx) as (e' & [= <-] & Hret).
  destruct x as [filePath|value|value|value|value|value];
    cbn [returns_error raised] in *; try done.
  - destruct Hret as [(bytes & ->)|(bytes & cm & u & -> & Hy & ->)].
    + exists e. split; [done|]. destruct e; apply list_elem_of_here.
    + rewrite Hy. exists u. split; [done|]. cbn [causes].
      apply list_elem_of_further. destruct u; apply list_elem_of_here.
  - destruct Hret as (_ & base' & u & -> & ->). exists u. split; [done|].
    cbn [causes]. apply list_elem_of_further. destruct u; apply list_elem_of_here.
  - destruct Hret as (_ & base' & u & -> & ->). exists u. split; [done|].
    cbn [causes]. apply list_elem_of_further. destruct u; apply list_elem_of_here.
  - destruct Hret as (base' & u & -> & ->). exists u. split; [done|].
    cbn [causes]. apply list_elem_of_further. destruct u; apply list_elem_of_here.
  - destruct Hret as (_ & base' & u & -> & ->). exists u. split; [done|].
    cbn [causes]. apply list_elem_of_further. destruct u; apply list_elem_of_here.
Qed.

End MergeValues_errors.

Section MergeValues_claims.
Context `{libs : Libs}.


(** C4, as the code has it. When [MergeValues] gives an error, that of
    item [x]: for a value file that was read and did not parse, the
    message is [failed to parse], the path, and the message of the
    parser, so it names the path; for a JSON expression it is
    [failed parsing --set-json data] and the raw expression; for the four
    other kinds it is a fixed text that names the kind followed by the
    message of the package, and the expression is in it only if the
    package put it there. *)
Theorem MergeValues_error_message opts w d e w' :
  MergeValues opts w = ((d, Some e), w') →
  ∃ pre x post base w1,
    items opts = pre ++ x :: post ∧
    rangeLoop step pre ∅ w = (inl base, w1) ∧
    match x with
    | IValueFile filePath =>
        (∃ bytes, readFile filePath w1 = ((bytes, Some e), w')) ∨
        (∃ u, raised x base w1 = Some u ∧
              Error e = ("failed to parse " +:+ filePath) +:+ ": " +:+ Error u ∧
              Contains (Error e) filePath = true)
    | IJSONValue value =>
        Error e = "failed parsing --set-json data " +:+ value ∧
        Contains (Error e) value = true
    | IValue _ =>
        ∃ u, raised x base w1 = Some u ∧
             Error e = "failed parsing --set data: " +:+ Error u
    | IStringValue _ =>
        ∃ u, raised x base w1 = Some u ∧
             Error e = "failed parsing --set-string data: " +:+ Error u
    | IFileValue _ =>
        ∃ u, raised x base w1 = Some u ∧
             Error e = "failed parsing --set-file data: " +:+ Error u
    | ILiteralValue _ =>
        ∃ u, raised x base w1 = Some u ∧
             Error e = "failed parsing --set-literal data: " +:+ Error u
    end.
Proof.
  intros Hrun.
  destruct (MergeValues_error_inv _ _ _ _ _ Hrun)
    as (_ & pre & x & post & base & w1 & Hitems & Hpre & Hx).
  exists pre, x, post, base, w1. split; [done|]. split; [done|].
  destruct (step_return _ _ _ _ _ Hx) as (e' & [= <-] & Hret).
  destruct x as [filePath|value|value|value|value|value];
    cbn [returns_error raised] in *.
  - destruct Hret as [(bytes & Hread)|(bytes & cm & u & Hread & Hy & ->)];
      [left; eauto|right].
    exists u. rewrite Hread, Hy. split; [done|]. split; [done|].
    cbn [Error]. apply Contains_app_l, Contains_app_r, Contains_refl.
  - destruct Hret as (_ & base' & u & _ & ->). split; [done|].
    cbn [Error]. apply Contains_app_r, Contains_refl.
  - destruct Hret as (_ & base' & u & -> & ->). eauto.
  - destruct Hret as (_ & base' & u & -> & ->). eauto.
  - destruct Hret as (base' & u & -> & ->). eauto.
  - destruct Hret as (_ & base' & u & -> & ->). eauto.
Qed.

(** C5, where the code departs from it. A JSON expression on which
    [strvals.ParseJSON] fails with [u] makes [MergeValues] return an
    error built from the expression alone: it has no cause, and [u] is
    not in it. *)
Theorem MergeValues_json_error_dropped opts w pre value post base w1 base' u :
  items opts = pre ++ IJSONValue value :: post →
  rangeLoop step pre ∅ w = (inl base, w1) →
  strvals_ParseJSON value base = (base', Some u) →
  let e := Errorf ("failed parsing --set-json data " +:+ value) in
  MergeValues opts w = ((None, Some e), w1) ∧
  raised (IJSONValue value) base w1 = Some u ∧
  causes e = [e] ∧
  (u ≠ e → u ∉ causes e).
Proof.
  intros Hitems Hpre Hjson e.
  split; [|split; [|split]].
  - eapply MergeValues_error_at; [done..|].
    cbn [step]. unfold jsonValueBody. by rewrite Hjson.
  - cbn [raised]. by rewrite Hjson.
  - done.
  - intros Hne Hin. apply list_elem_of_singleton in Hin. done.
Qed.

End MergeValues_claims.

(** ** Runs on the store and documents *)

(** A stored value denotes at most one document value. *)
Lemma reps_functional (h : heap) hv v1 v2 :
  reps h hv v1 → reps h hv v2 → v1 = v2.
Proof.
  intros H1. revert v2.
  induction H1 as [| | | | |hs vs Hlen _ IH|r hm m Hread Hdom _ IH];
    intros v2 H2; inversion H2 as [| | | | |? vs' Hlen' H'|? hm' m' Hread' Hdom' H'];
    subst; try done.
  - f_equal. apply list_eq. intros i.
    destruct (hs !! i) as [hv|] eqn:Hi.
    + destruct (lookup_lt_is_Some_2 vs i) as [x Hx].
      { rewrite <-Hlen. eapply lookup_lt_Some, Hi. }
      destruct (lookup_lt_is_Some_2 vs' i) as [x' Hx'].
      { rewrite <-Hlen'. eapply lookup_lt_Some, Hi. }
      rewrite Hx, Hx'. f_equal. eapply IH; eauto.
    + apply lookup_ge_None in Hi.
      rewrite (lookup_ge_None_2 vs), (lookup_ge_None_2 vs'); [done|lia..].
  - rewrite Hread in Hread'. injection Hread' as <-.
    f_equal. apply map_eq. intros k.
    destruct (hm !! k) as [hv|] eqn:Hk.
    + assert (is_Some (m !! k)) as [x Hx].
      { apply elem_of_dom. rewrite <-Hdom. apply elem_of_dom. eauto. }
      assert (is_Some (m' !! k)) as [x' Hx'].
      { apply elem_of_dom. rewrite <-Hdom'. apply elem_of_dom. eauto. }
      rewrite Hx, Hx'. f_equal. eapply IH; eauto.
    + apply not_elem_of_dom in Hk.
      assert (m !! k = None) as -> by (apply not_elem_of_dom; by rewrite <-Hdom).
      assert (m' !! k = None) as -> by (apply not_elem_of_dom; by rewrite <-Hdom').
      done.
Qed.

(** Whatever the store, the order of visit and the addresses, a run of
    [mergeMaps] returns the merge of the two documents. *)
Lemma merge_run_mergeMaps (A B C : gmap string val) :
  merge_run A B C → C = mergeMaps A B.
Proof.
  intros (h & a & b & h' & out & HA & HB & Hrun & HC).
  assert (VMap C = VMap (mergeMaps A B)) as [= ->]; [|done].
  eapply reps_functional; [exact HC|].
  eapply mergeMaps_heap_result; eauto.
Qed.

Lemma val_size_elem (l : list val) x :
  x ∈ l → val_size x < val_size (VSeq l).
Proof.
  intros Hin. cbn [val_size].
  induction Hin as [x l|x y l _ IH]; cbn [foldr]; lia.
Qed.

(** Every document value can be laid out in a store, on top of what the
    store holds. *)
Lemma layout_exists (v : val) (h : heap) :
  ∃ h' hv, h ⊆ h' ∧ reps h' hv v.
Proof.
  remember (val_size v) as n eqn:Hn. revert v Hn h.
  induction (lt_wf n) as [n _ IH]. intros v -> h.
  destruct v as [|b|z|x|s|l|m];
    try (by eexists h, _; split; [done|constructor]).
  - (* a sequence *)
    assert (∀ l' (h : heap), (∀ x, x ∈ l' → val_size x < val_size (VSeq l)) →
      ∃ h' hs, h ⊆ h' ∧ length hs = length l' ∧
        ∀ i hv v, hs !! i = Some hv → l' !! i = Some v → reps h' hv v) as Hseq.
    { induction l' as [|x l' IHl]; intros h0 Hsmall.
      - exists h0, []. split; [done|]. split; [done|]. by intros [|?].
      - destruct (IHl h0) as (h1 & hs & Hsub1 & Hlen & Hall).
        { intros y Hy. apply Hsmall. by apply list_elem_of_further. }
        destruct (IH (val_size x) (Hsmall x (list_elem_of_here _ _)) x eq_refl h1)
          as (h2 & hx & Hsub2 & Hx).
        exists h2, (hx :: hs). split; [by etrans|]. split; [simpl; lia|].
        intros [|i] hv v; simpl.
        + by intros [= <-] [= <-].
        + intros Hi Hv. eapply reps_weaken; eauto. }
    destruct (Hseq l h) as (h' & hs & Hsub & Hlen & Hall).
    { intros x. apply val_size_elem. }
    exists h', (HSeq hs). split; [done|]. by constructor.
  - (* a nested document *)
    assert (∀ m' (h : heap),
      (∀ k x, m' !! k = Some x → val_size x < val_size (VMap m)) →
      ∃ h' hm, h ⊆ h' ∧ reps_entries h' hm m') as Hmap.
    { induction m' as [|k x m' Hk IHm] using map_ind; intros h0 Hsmall.
      - exists h0, ∅. split; [done|]. split; [by rewrite !dom_empty_L|].
        intros k hv v. by rewrite lookup_empty.
      - destruct (IHm h0) as (h1 & hm & Hsub1 & Hent).
        { intros k' y Hy. apply (Hsmall k' y).
          rewrite lookup_insert_ne; [done|]. intros ->. congruence. }
        destruct (IH (val_size x) (Hsmall k x (lookup_insert_eq _ _ _)) x eq_refl h1)
          as (h2 & hx & Hsub2 & Hx).
        exists h2, (<[k := hx]> hm). split; [by etrans|].
        apply reps_entries_insert; [|done].
        eapply reps_entries_weaken; eauto. }
    destruct (Hmap m h) as (h' & hm & Hsub & Hent).
    { intros k x. apply val_size_lookup. }
    set (l := fresh (dom h')).
    assert (h' !! l = None) as Hl by apply not_elem_of_dom, is_fresh.
    exists (<[l := hm]> h'), (HMap (Some l)). split.
    + etrans; [exact Hsub|]. by apply insert_subseteq.
    + apply reps_doc_entries. exists hm. split; [apply lookup_insert_eq|].
      eapply reps_entries_weaken; [|exact Hent]. by apply insert_subseteq.
Qed.

(** There is a run for every pair of documents. *)
Lemma merge_run_exists (A B : gmap string val) :
  merge_run A B (mergeMaps A B).
Proof.
  destruct (layout_exists (VMap A) ∅) as (h1 & ha & _ & HA).
  destruct (layout_exists (VMap B) h1) as (h2 & hb & Hsub & HB).
  destruct (reps_VMap_inv _ _ _ HA) as [a ->].
  destruct (reps_VMap_inv _ _ _ HB) as [b ->].
  assert (reps_doc h2 a A) as HA2 by (eapply reps_weaken; eauto).
  destruct (mergeMaps_heap_exists B h2 h2 a b A) as (h' & out & Hrun);
    [done..|].
  exists h2, a, b, h', out. repeat split; try done.
  eapply mergeMaps_heap_result; eauto.
Qed.

(** C10. Called on two map references that denote documents,
    [mergeMaps] returns; and however it runs, the map it returns is at an
    address that was free, every map object of the store is after the
    call as it was before, so that both arguments and the documents
    nested in them denote what they denoted, and the keys of the
    returned map are those of the first argument and those of the
    second. *)
Theorem mergeMaps_heap_frame (h : heap) a b (A B : gmap string val) :
  reps_doc h a A → reps_doc h b B →
  (∃ h' out, mergeMaps_heap h a b h' out) ∧
  ∀ h' out, mergeMaps_heap h a b h' out →
    h !! out = None ∧
    (∀ l m, h !! l = Some m → h' !! l = Some m) ∧
    reps_doc h' a A ∧ reps_doc h' b B ∧
    ∃ ma mb mo,
      readMap h a = Some ma ∧ readMap h b = Some mb ∧
      h' !! out = Some mo ∧ dom mo = dom ma ∪ dom mb.
Proof.
  intros HA HB. split.
  - by apply (mergeMaps_heap_exists B h h a b A).
  - intros h' out Hrun.
    destruct (mergeMaps_heap_grows _ _ _ _ _ Hrun) as [Hfresh Hsub].
    split; [done|]. split.
    { intros l m Hl. by eapply lookup_weaken. }
    split; [by eapply reps_weaken|]. split; [by eapply reps_weaken|].
    apply reps_doc_entries in HA as (ma & Ha & _).
    apply reps_doc_entries in HB as (mb & Hb & _).
    destruct (mergeMaps_heap_keys _ _ _ _ _ _ _ Hrun Ha Hb) as (mo & Hmo & Hdom).
    eauto 10.
Qed.

Section MergeValues_runs.
Context `{libs : Libs}.

Lemma MergeValues_split opts w :
  MergeValues opts w =
  match rangeLoop valueFileBody (ValueFiles opts) ∅ w with
  | (inl base, w') => call (applyValues opts base) w'
  | (inr r, w') => (r, w')
  end.
Proof.
  unfold MergeValues, applyValues, call, mbind, M_bind.
  by destruct (rangeLoop valueFileBody (ValueFiles opts) ∅ w) as [[?|?] ?].
Qed.

Lemma valueFileBody_run_fun filePath base w res :
  valueFileBody_run filePath base w res ↔ res = valueFileBody filePath base w.
Proof.
  unfold valueFileBody, mbind, M_bind, io, Return, mret, M_ret. split.
  - intros [bytes err w' Hread|bytes w' cm err Hread Hy
            |bytes w' cm base' Hread Hy Hmerge]; rewrite Hread; [done|..];
      rewrite Hy; [done|].
    by rewrite (merge_run_mergeMaps _ _ _ Hmerge).
  - intros ->. destruct (readFile filePath w) as [[bytes [err|]] w'] eqn:Hread.
    + by econstructor.
    + destruct (yaml_Unmarshal bytes ∅) as [cm [err|]] eqn:Hy.
      * by econstructor.
      * eapply valueFileBody_merges; eauto using merge_run_exists.
Qed.

Lemma valueFiles_run_fun paths base w res :
  valueFiles_run paths base w res ↔ res = rangeLoop valueFileBody paths base w.
Proof.
  split.
  - induction 1 as [base w|filePath rest base w r w' Hbody
                   |filePath rest base w base' w' res Hbody _ IH];
      [done|..]; apply valueFileBody_run_fun in Hbody;
      cbn [rangeLoop]; unfold mbind, M_bind; by rewrite <-Hbody.
  - intros ->. revert base w.
    induction paths as [|filePath rest IH]; intros base w; [constructor|].
    cbn [rangeLoop]. unfold mbind, M_bind.
    destruct (valueFileBody filePath base w) as [[base'|r] w'] eqn:Hbody.
    + eapply valueFiles_next; [|apply IH].
      apply valueFileBody_run_fun. by rewrite Hbody.
    + apply valueFiles_return. apply valueFileBody_run_fun. by rewrite Hbody.
Qed.

Lemma MergeValues_run_fun opts w res :
  MergeValues_run opts w res ↔ res = MergeValues opts w.
Proof.
  rewrite MergeValues_split. split.
  - intros [r w' Hfiles|base w' Hfiles];
      apply valueFiles_run_fun in Hfiles; by rewrite <-Hfiles.
  - intros ->.
    destruct (rangeLoop valueFileBody (ValueFiles opts) ∅ w) as [[base|r] w']
      eqn:Hfiles.
    + apply MergeValues_run_values. apply valueFiles_run_fun. by rewrite Hfiles.
    + apply MergeValues_run_return. apply valueFiles_run_fun. by rewrite Hfiles.
Qed.

(** C7. From the same options and the same world, [MergeValues] has a
    run, and all its runs end with the same document or error and the
    same world: the orders in which [mergeMaps] visits its maps, the
    addresses it allocates and the place of the documents in the store
    do not show in the outcome. *)
Theorem MergeValues_deterministic (opts : Options) (w : world) :
  ∃ res, MergeValues_run opts w res ∧
         ∀ res', MergeValues_run opts w res' → res' = res.
Proof.
  exists (MergeValues opts w). split.
  - by apply MergeValues_run_fun.
  - intros res'. apply MergeValues_run_fun.
Qed.

End MergeValues_runs.

(** ** Closed examples *)

(** The examples of deep merge: nested documents are merged, a scalar
    replaces a nested document. *)
Example mergeMaps_nested :
  mergeMaps {[ "a" := VMap {[ "x" := VInt 1 ]} ]}
            {[ "a" := VMap {[ "y" := VInt 2 ]} ]}
  = {[ "a" := VMap {[ "x" := VInt 1; "y" := VInt 2 ]} ]}.
Proof. vm_compute. reflexivity. Qed.

Example mergeMaps_scalar_wins :
  mergeMaps {[ "a" := VMap {[ "x" := VInt 1 ]} ]} {[ "a" := VInt 5 ]}
  = {[ "a" := VInt 5 ]}.
Proof. vm_compute. reflexivity. Qed.

Example mergeMaps_later_file_wins :
  mergeMaps {[ "a" := VInt 1 ]} {[ "a" := VInt 2 ]} = {[ "a" := VInt 2 ]} ∧
  mergeMaps {[ "a" := VInt 2 ]} {[ "a" := VInt 1 ]} = {[ "a" := VInt 1 ]}.
Proof. split; vm_compute; reflexivity. Qed.

Example TrimSpace_dash :
  TrimSpace " - " = "-" ∧ TrimSpace "-" = "-" ∧ TrimSpace "a -" = "a -".
Proof. repeat split. Qed.

(** A run on the store: the nested documents under [a] are merged into a
    new map object, at address 6, and the arguments stay as they were. *)
Example mergeMaps_exec_twoDocs :
  mergeMaps_exec 2 twoDocs (Some 1%positive) (Some 3%positive) =
  Some (<[ 5%positive := {[ "a" := HMap (Some 6%positive) ]} ]>
          (<[ 6%positive := {[ "x" := HInt 1; "y" := HInt 2 ]} ]> twoDocs),
        5%positive).
Proof. vm_compute. reflexivity. Qed.

(** Where no recursion occurs the returned map holds the very reference
    that the argument holds: merging [{a: {x: 1}}] with the nil map gives
    a map whose [a] is the map object at address 2. *)
Example mergeMaps_exec_shares :
  mergeMaps_exec 1 twoDocs (Some 1%positive) None =
  Some (<[ 5%positive := {[ "a" := HMap (Some 2%positive) ]} ]> twoDocs,
        5%positive).
Proof. vm_compute. reflexivity. Qed.

(** A call with files, standard input and every kind of expression. *)
Example MergeValues_every_kind :
  MergeValues everyKind everyKindWorld =
  ((Some {[ "a" := VInt 1; "b" := VInt (-12); "c" := VStr "x";
            "j" := VBool true; "q" := VStr "zed"; "s" := VStr "1";
            "k" := VStr fileText; "m" := VStr ""; "key" := VStr "a,b=c" ]},
    None),
   {| stdin := ""; stdin_err := None;
      files := {[ "f.yaml" := inl fileText ]};
      io_log := [EvOpen "f.yaml"; EvReadStdin; EvOpen "f.yaml"; EvReadStdin] |}).
Proof. vm_compute. reflexivity. Qed.

Lemma mergeMaps_deep_merge_witness :
  let A : gmap string val :=
    {[ "a" := VMap {[ "x" := VInt 1 ]}; "p" := VInt 1; "s" := VInt 5 ]} in
  let B : gmap string val :=
    {[ "a" := VMap {[ "y" := VInt 2 ]}; "q" := VInt 2;
       "s" := VMap {[ "z" := VInt 1 ]} ]} in
  mergeMaps A B !! "p" = Some (VInt 1) ∧
  mergeMaps A B !! "q" = Some (VInt 2) ∧
  mergeMaps A B !! "a" = Some (VMap (mergeMaps {[ "x" := VInt 1 ]} {[ "y" := VInt 2 ]})) ∧
  mergeMaps A B !! "s" = Some (VMap {[ "z" := VInt 1 ]}).
Proof.
  intros A B. split; [|split; [|split]].
  - apply (proj1 (mergeMaps_deep_merge A B "p")). reflexivity.
  - apply (proj1 (proj2 (mergeMaps_deep_merge A B "q"))). reflexivity.
  - apply (proj2 (proj2 (mergeMaps_deep_merge A B "a"))
             (VMap {[ "x" := VInt 1 ]}) (VMap {[ "y" := VInt 2 ]}));
      reflexivity.
  - apply (proj2 (proj2 (mergeMaps_deep_merge A B "s"))
             (VInt 5) (VMap {[ "z" := VInt 1 ]}));
      reflexivity.
Defined.



(** C4 as stated fails: [--set a=1,b] does not parse, and the error
    that [MergeValues] returns does not hold the expression. *)
Lemma MergeValues_error_without_expression :
  let e := Wrap (Flat.noValue "b") "failed parsing --set data" in
  (strvals_ParseInto "a=1,b" ∅).2 = Some (Flat.noValue "b") ∧
  MergeValues plainWithoutValue emptyWorld = ((None, Some e), emptyWorld) ∧
  Error e = "failed parsing --set data: key " +:+ Flat.dquote +:+ "b"
            +:+ Flat.dquote +:+ " has no value" ∧
  Contains (Error e) "a=1,b" = false.
Proof. repeat split; vm_compute; reflexivity. Qed.

Lemma MergeValues_error_message_witness :
  let e := Wrap Flat.outside "failed to parse bad.yaml" in
  MergeValues badFile badFileWorld
    = ((None, Some e),
       {| stdin := ""; stdin_err := None; files := files badFileWorld;
          io_log := [EvOpen "bad.yaml"] |}) ∧
  ∃ pre x post base w1,
    items badFile = pre ++ x :: post ∧
    rangeLoop step pre ∅ badFileWorld = (inl base, w1) ∧
    match x with
    | IValueFile filePath =>
        (∃ bytes, readFile filePath w1
                  = ((bytes, Some e),
                     {| stdin := ""; stdin_err := None;
                        files := files badFileWorld;
                        io_log := [EvOpen "bad.yaml"] |})) ∨
        (∃ u, raised x base w1 = Some u ∧
              Error e = ("failed to parse " +:+ filePath) +:+ ": " +:+ Error u ∧
              Contains (Error e) filePath = true)
    | IJSONValue value =>
        Error e = "failed parsing --set-json data " +:+ value ∧
        Contains (Error e) value = true
    | IValue _ =>
        ∃ u, raised x base w1 = Some u ∧
             Error e = "failed parsing --set data: " +:+ Error u
    | IStringValue _ =>
        ∃ u, raised x base w1 = Some u ∧
             Error e = "failed parsing --set-string data: " +:+ Error u
    | IFileValue _ =>
        ∃ u, raised x base w1 = Some u ∧
             Error e = "failed parsing --set-file data: " +:+ Error u
    | ILiteralValue _ =>
        ∃ u, raised x base w1 = Some u ∧
             Error e = "failed parsing --set-literal data: " +:+ Error u
    end.
Proof.
  intros e. split; [vm_compute; reflexivity|].
  apply (MergeValues_error_message badFile badFileWorld None e).
  vm_compute. reflexivity.
Defined.

Lemma MergeValues_json_error_dropped_witness :
  let e := Errorf "failed parsing --set-json data a" in
  items jsonWithoutValue = [] ++ IJSONValue "a" :: [] ∧
  strvals_ParseJSON "a" ∅ = (∅, Some (Flat.noValue "a")) ∧
  MergeValues jsonWithoutValue emptyWorld = ((None, Some e), emptyWorld) ∧
  raised (IJSONValue "a") ∅ emptyWorld = Some (Flat.noValue "a") ∧
  causes e = [e] ∧
  (Flat.noValue "a" ≠ e → Flat.noValue "a" ∉ causes e).
Proof.
  intros e. split; [reflexivity|]. split; [reflexivity|].
  apply (MergeValues_json_error_dropped jsonWithoutValue emptyWorld
           [] "a" [] ∅ emptyWorld ∅ (Flat.noValue "a")); reflexivity.
Defined.


Lemma reps_doc_singleton (h : heap) r k hv v :
  readMap h r = Some {[ k := hv ]} → reps h hv v →
  reps_doc h r {[ k := v ]}.
Proof.
  intros Hread Hv. apply reps_doc_entries. eexists. split; [done|]. split.
  - by rewrite !dom_singleton_L.
  - intros k' hv' v'. destruct (decide (k = k')) as [<-|Hne].
    + rewrite !lookup_singleton_eq. by intros [= <-] [= <-].
    + by rewrite lookup_singleton_ne.
Qed.

Lemma mergeMaps_heap_frame_witness :
  let A : gmap string val := {[ "a" := VMap {[ "x" := VInt 1 ]} ]} in
  let B : gmap string val := {[ "a" := VMap {[ "y" := VInt 2 ]} ]} in
  reps_doc twoDocs (Some 1%positive) A ∧
  reps_doc twoDocs (Some 3%positive) B ∧
  (∃ h' out, mergeMaps_heap twoDocs (Some 1%positive) (Some 3%positive) h' out) ∧
  ∀ h' out,
    mergeMaps_heap twoDocs (Some 1%positive) (Some 3%positive) h' out →
    twoDocs !! out = None ∧
    (∀ l m, twoDocs !! l = Some m → h' !! l = Some m) ∧
    reps_doc h' (Some 1%positive) A ∧ reps_doc h' (Some 3%positive) B ∧
    ∃ ma mb mo,
      readMap twoDocs (Some 1%positive) = Some ma ∧
      readMap twoDocs (Some 3%positive) = Some mb ∧
      h' !! out = Some mo ∧ dom mo = dom ma ∪ dom mb.
Proof.
  intros A B.
  assert (reps_doc twoDocs (Some 1%positive) A) as HA.
  { apply (reps_doc_singleton _ _ _ (HMap (Some 2%positive))); [reflexivity|].
    apply (reps_doc_singleton _ _ _ (HInt 1)); [reflexivity|constructor]. }
  assert (reps_doc twoDocs (Some 3%positive) B) as HB.
  { apply (reps_doc_singleton _ _ _ (HMap (Some 4%positive))); [reflexivity|].
    apply (reps_doc_singleton _ _ _ (HInt 2)); [reflexivity|constructor]. }
  split; [exact HA|]. split; [exact HB|].
  exact (mergeMaps_heap_frame twoDocs (Some 1%positive) (Some 3%positive) A B HA HB).
Defined.

(** * Further properties *)

(** ** Laws of the deep merge *)

Lemma mergeSlot_None (v : val) : mergeSlot None v = v.
Proof. by destruct v. Qed.

Lemma mergeSlot_scalar (old : option val) (v : val) :
  asMap v = None → mergeSlot old v = v.
Proof. by destruct old as [[]|], v. Qed.

Lemma mergeSlot_over_scalar (x v : val) :
  asMap x = None → mergeSlot (Some x) v = v.
Proof. by destruct x, v. Qed.

Lemma mergeMaps_from_empty (B : gmap string val) : mergeMaps ∅ B = B.
Proof.
  apply map_eq. intros k. rewrite mergeMaps_lookup, lookup_empty.
  destruct (B !! k); [by rewrite mergeSlot_None|done].
Qed.

Lemma mergeMaps_with_empty (A : gmap string val) : mergeMaps A ∅ = A.
Proof.
  apply map_eq. intros k. by rewrite mergeMaps_lookup, lookup_empty.
Qed.

(** X1. Merging the same document in a second time changes nothing. *)
Theorem mergeMaps_absorb_r (A B : gmap string val) :
  mergeMaps (mergeMaps A B) B = mergeMaps A B.
Proof.
  revert A. induction B as [B IH] using doc_ind. intros A.
  apply map_eq. intros k. rewrite !mergeMaps_lookup.
  destruct (B !! k) as [b|] eqn:Hb; [|done].
  f_equal. destruct (asMap b) as [mb|] eqn:Hmb.
  - destruct b; try done. injection Hmb as ->.
    assert (mergeMaps mb mb = mb) as Hself.
    { rewrite <-(mergeMaps_from_empty mb) at 1. rewrite (IH k mb Hb ∅).
      apply mergeMaps_from_empty. }
    destruct (A !! k) as [[| | | | | |ma]|]; cbn [mergeSlot];
      rewrite ?Hself; try done.
    by rewrite (IH k mb Hb ma).
  - by rewrite !mergeSlot_scalar.
Qed.

(** X2. Merging a document into what it was merged from changes
    nothing either. *)
Theorem mergeMaps_absorb_l (A B : gmap string val) :
  mergeMaps A (mergeMaps A B) = mergeMaps A B.
Proof.
  revert B. induction A as [A IH] using doc_ind. intros B.
  apply map_eq. intros k. rewrite !mergeMaps_lookup.
  destruct (B !! k) as [b|] eqn:Hb.
  - f_equal. destruct (A !! k) as [[| | | | | |ma]|] eqn:Ha;
      try (rewrite !mergeSlot_over_scalar by done; done);
      try (by rewrite !mergeSlot_None).
    destruct b as [| | | | | |mb]; cbn [mergeSlot]; try done.
    by rewrite (IH k ma Ha mb).
  - destruct (A !! k) as [a|] eqn:Ha; [|done].
    f_equal. destruct a as [| | | | | |ma]; cbn [mergeSlot]; try done.
    f_equal. rewrite <-(mergeMaps_with_empty ma) at 2 3.
    apply (IH k ma Ha ∅).
Qed.

Lemma isDoc_asMap (v : val) : isDoc v = false → asMap v = None.
Proof. by destruct v. Qed.

(** X3. When no value of the incoming document is a nested document,
    or none of the existing one is, the merge is the union of the two
    in which the incoming document wins. *)
Theorem mergeMaps_flat (A B : gmap string val) :
  flatDoc B ∨ flatDoc A → mergeMaps A B = B ∪ A.
Proof.
  intros Hflat. apply map_eq. intros k.
  rewrite mergeMaps_lookup, lookup_union.
  destruct (B !! k) as [b|] eqn:Hb; [|by rewrite (left_id_L None _)].
  rewrite union_Some_l. f_equal.
  destruct Hflat as [HB|HA].
  - apply mergeSlot_scalar, isDoc_asMap. by apply (HB k).
  - destruct (A !! k) as [a|] eqn:Ha; [|apply mergeSlot_None].
    apply mergeSlot_over_scalar, isDoc_asMap. by apply (HA k).
Qed.

(** X4. Two documents with no top-level key in common merge into their
    union, whichever comes first. *)
Theorem mergeMaps_disjoint (A B : gmap string val) :
  dom A ## dom B →
  mergeMaps A B = A ∪ B ∧ mergeMaps A B = mergeMaps B A.
Proof.
  assert (∀ X Y : gmap string val,
            dom X ## dom Y → mergeMaps X Y = Y ∪ X) as Hdisj.
  { intros X Y Hd. apply map_eq. intros k.
    rewrite mergeMaps_lookup, lookup_union.
    destruct (Y !! k) as [y|] eqn:Hy; [|by rewrite (left_id_L None _)].
    assert (X !! k = None) as ->.
    { apply not_elem_of_dom. intros Hx. apply (Hd k Hx).
      apply elem_of_dom. eauto. }
    by rewrite mergeSlot_None. }
  intros Hd.
  assert (A ∪ B = B ∪ A) as Hcomm.
  { apply map_union_comm. by apply map_disjoint_dom. }
  rewrite (Hdisj A B Hd), (Hdisj B A) by done.
  by rewrite Hcomm.
Qed.

(** ** The merge along a path *)

Lemma offPath_getPath (p : list string) (v : val) :
  offPath p v = true → getPath p v = None.
Proof.
  revert v. induction p as [|k p IH]; intros v; [done|].
  cbn [offPath getPath]. destruct v as [| | | | | |m]; try done.
  destruct (m !! k) as [v'|]; [|done]. cbn [mbind option_bind].
  destruct v' as [| | | | | |m']; try done. apply IH.
Qed.

Lemma getPath_scalar (p : list string) (v : val) :
  asMap v = None → p ≠ [] → getPath p v = None.
Proof. intros Hv Hp. destruct p; [done|]. by destruct v. Qed.

(** X5. A value of the incoming document that is not itself a document
    is, in the merge, at the path where the incoming document has it. *)
Theorem mergeMaps_incoming_leaf (A B : gmap string val) (p : list string) (v : val) :
  getPath p (VMap B) = Some v → asMap v = None →
  getPath p (VMap (mergeMaps A B)) = Some v.
Proof.
  intros Hp Hv. revert A B Hp.
  induction p as [|k p IH]; intros A B Hp.
  { injection Hp as <-. done. }
  cbn [getPath] in *. rewrite mergeMaps_lookup.
  destruct (B !! k) as [b|] eqn:Hb; [|done].
  cbn [mbind option_bind] in *.
  destruct (asMap b) as [mb|] eqn:Hmb.
  - destruct b; try done. injection Hmb as ->.
    destruct p as [|k' p'].
    { injection Hp as <-. done. }
    destruct (A !! k) as [[| | | | | |ma]|]; cbn [mergeSlot]; try done.
    by apply IH.
  - by rewrite mergeSlot_scalar.
Qed.

(** X6. Where the incoming document holds nothing on a path, the merge
    has on that path what the existing document has. *)
Theorem mergeMaps_existing_kept (A B : gmap string val) (p : list string) :
  offPath p (VMap B) = true →
  getPath p (VMap (mergeMaps A B)) = getPath p (VMap A).
Proof.
  revert A B. induction p as [|k p IH]; intros A B; [done|].
  cbn [offPath getPath]. rewrite mergeMaps_lookup.
  destruct (B !! k) as [b|] eqn:Hb; [|done].
  destruct b as [| | | | | |mb]; try done. intros Hoff.
  cbn [mbind option_bind].
  destruct (A !! k) as [a|] eqn:Ha; cbn [mbind option_bind].
  - destruct (asMap a) as [ma|] eqn:Hma.
    + destruct a; try done. injection Hma as ->. cbn [mergeSlot].
      by apply IH.
    + rewrite mergeSlot_over_scalar by done.
      rewrite (offPath_getPath _ _ Hoff). symmetry.
      apply getPath_scalar; [done|]. by destruct p.
  - rewrite mergeSlot_None. by apply offPath_getPath.
Qed.


(** ** Runs of mergeMaps on the store *)

(** X8. Two runs of [mergeMaps] from the same store on the same
    arguments, in whatever orders they visit the maps and at whatever
    addresses they allocate, return maps that denote the same document,
    the merge of the documents of the arguments. *)
Theorem mergeMaps_heap_order_independent (h : heap) a b
    (A B : gmap string val) h1 out1 h2 out2 :
  reps_doc h a A → reps_doc h b B →
  mergeMaps_heap h a b h1 out1 →
  mergeMaps_heap h a b h2 out2 →
  reps_doc h1 (Some out1) (mergeMaps A B) ∧
  reps_doc h2 (Some out2) (mergeMaps A B).
Proof.
  intros HA HB Hrun1 Hrun2. split; eapply mergeMaps_heap_result; eauto.
Qed.

Lemma elem_of_NoDup_fst {V} (l : list (string * V)) k v v' :
  NoDup l.*1 → (k, v) ∈ l → (k, v') ∈ l → v = v'.
Proof.
  induction l as [|[k0 v0] l IH]; intros Hnd Hin Hin'.
  { by apply elem_of_nil in Hin. }
  inversion_clear Hnd as [|? ? Hk0 Hnd'].
  apply elem_of_cons in Hin as [Heq|Hin];
    apply elem_of_cons in Hin' as [Heq'|Hin']; simplify_eq; try done.
  - exfalso. apply Hk0. apply list_elem_of_fmap. by exists (k0, v').
  - exfalso. apply Hk0. apply list_elem_of_fmap. by exists (k0, v).
  - by apply IH.
Qed.

Lemma range_b_entries (h0 : heap) out lb h h' :
  range_b out lb h h' →
  ∀ mo, h !! out = Some mo → NoDup lb.*1 → h0 ⊆ h → h0 !! out = None →
  ∃ mo', h' !! out = Some mo' ∧
    ∀ k, (k ∉ lb.*1 → mo' !! k = mo !! k) ∧
         ∀ v, (k, v) ∈ lb →
              if bothMaps (mo !! k) v
              then ∃ r, mo' !! k = Some (HMap (Some r)) ∧ h0 !! r = None
              else mo' !! k = Some v.
Proof.
  revert out lb h h'.
  apply (range_b_mut (λ _ _ _ _ _, True)
    (λ out lb h h',
       ∀ mo, h !! out = Some mo → NoDup lb.*1 → h0 ⊆ h → h0 !! out = None →
       ∃ mo', h' !! out = Some mo' ∧
         ∀ k, (k ∉ lb.*1 → mo' !! k = mo !! k) ∧
              ∀ v, (k, v) ∈ lb →
                   if bothMaps (mo !! k) v
                   then ∃ r, mo' !! k = Some (HMap (Some r)) ∧ h0 !! r = None
                   else mo' !! k = Some v)); [done|..].
  - intros out h mo Hmo _ _ _. exists mo. split; [done|].
    intros k. split; [done|]. intros v Hin. by apply elem_of_nil in Hin.
  - intros out k vr lb h mo bvr h1 r h' Hmo Hk Hcall _ _ IH mo0 Hmo0 Hnd Hsub Hout.
    rewrite Hmo in Hmo0. injection Hmo0 as <-.
    inversion_clear Hnd as [|? ? Hknew Hnd'].
    destruct (mergeMaps_heap_grows _ _ _ _ _ Hcall) as [Hr Hhh1].
    assert (h1 !! out = Some mo) as Hmo1 by (eapply lookup_weaken; eauto).
    destruct (IH (<[k := HMap (Some r)]> mo)) as (mo' & Hmo' & Hent); try done.
    { by rewrite storeKey_lookup_eq, Hmo1. }
    { apply subseteq_storeKey; [by etrans|done]. }
    exists mo'. split; [done|]. intros j. split.
    + intros Hj. destruct (Hent j) as [Hkeep _].
      rewrite Hkeep, lookup_insert_ne; [done|..].
      * intros ->. apply Hj, list_elem_of_here.
      * intros Hin. apply Hj. by apply list_elem_of_further.
    + intros v Hin. apply elem_of_cons in Hin as [Heq|Hin];
        [injection Heq as -> ->|].
      * rewrite Hk. cbn [bothMaps]. exists r. destruct (Hent k) as [Hkeep _].
        rewrite (Hkeep Hknew), lookup_insert_eq. split; [done|].
        destruct (h0 !! r) eqn:E; [|done].
        by rewrite (lookup_weaken _ _ _ _ E Hsub) in Hr.
      * assert (j ≠ k) as Hne.
        { intros ->. apply Hknew, list_elem_of_fmap. by exists (k, v). }
        destruct (Hent j) as [_ Hset]. specialize (Hset v Hin).
        by rewrite lookup_insert_ne in Hset.
  - intros out k v lb h mo h' Hmo Hboth _ IH mo0 Hmo0 Hnd Hsub Hout.
    rewrite Hmo in Hmo0. injection Hmo0 as <-.
    inversion_clear Hnd as [|? ? Hknew Hnd'].
    destruct (IH (<[k := v]> mo)) as (mo' & Hmo' & Hent); try done.
    { by rewrite storeKey_lookup_eq, Hmo. }
    { by apply subseteq_storeKey. }
    exists mo'. split; [done|]. intros j. split.
    + intros Hj. destruct (Hent j) as [Hkeep _].
      rewrite Hkeep, lookup_insert_ne; [done|..].
      * intros ->. apply Hj, list_elem_of_here.
      * intros Hin. apply Hj. by apply list_elem_of_further.
    + intros v' Hin. apply elem_of_cons in Hin as [Heq|Hin];
        [injection Heq as -> ->|].
      * rewrite Hboth. destruct (Hent k) as [Hkeep _].
        by rewrite (Hkeep Hknew), lookup_insert_eq.
      * assert (j ≠ k) as Hne.
        { intros ->. apply Hknew, list_elem_of_fmap. by exists (k, v'). }
        destruct (Hent j) as [_ Hset]. specialize (Hset v' Hin).
        by rewrite lookup_insert_ne in Hset.
Qed.

(** X9. The map that [mergeMaps] returns is a shallow copy outside the
    merged keys: under a key that only the first argument has it holds
    the very value, reference included, that the first argument holds;
    under a key of the second argument it holds the value of the second
    argument, unless both hold maps, and then it holds a reference to a
    map object that did not exist before the call. *)
Theorem mergeMaps_heap_shares (h : heap) a b h' out ma mb :
  mergeMaps_heap h a b h' out →
  readMap h a = Some ma → readMap h b = Some mb →
  ∃ mo, h' !! out = Some mo ∧
    ∀ k, match mb !! k with
         | None => mo !! k = ma !! k
         | Some v =>
             if bothMaps (ma !! k) v
             then ∃ r, mo !! k = Some (HMap (Some r)) ∧ h !! r = None
             else mo !! k = Some v
         end.
Proof.
  intros Hrun Ha Hb.
  inversion Hrun as [? ? ? ma' mb' la lb ? ? Ha' Hb' Hfresh Hla Hlb Hloop]; subst.
  rewrite Ha in Ha'. injection Ha' as <-.
  rewrite Hb in Hb'. injection Hb' as <-.
  destruct (range_b_entries h _ _ _ _ Hloop ma) as (mo & Hmo & Hent).
  - erewrite copyRange_lookup_eq by apply lookup_insert_eq.
    by rewrite (copy_any_order la ma).
  - rewrite Hlb. apply NoDup_fst_map_to_list.
  - apply map_subseteq_spec. intros l x Hl.
    assert (out ≠ l) by congruence.
    by rewrite copyRange_lookup_ne, lookup_insert_ne.
  - done.
  - exists mo. split; [done|]. intros k. destruct (Hent k) as [Hkeep Hset].
    destruct (mb !! k) as [v|] eqn:Hk.
    + apply Hset. rewrite Hlb. by apply elem_of_map_to_list.
    + apply Hkeep. rewrite Hlb. intros Hin.
      apply list_elem_of_fmap in Hin as ([k' v] & -> & Hin).
      apply elem_of_map_to_list in Hin. simpl in Hk. congruence.
Qed.

(** ** What MergeValues returns and reads *)

Section MergeValues_more.
Context `{libs : Libs}.

(** X10. Of the document and the error that [MergeValues] returns,
    exactly one is nil. *)
Theorem MergeValues_document_or_error (opts : Options) (w : world) :
  (∃ base, (MergeValues opts w).1 = (Some base, None)) ∨
  (∃ e, (MergeValues opts w).1 = (None, Some e)).
Proof.
  rewrite MergeValues_items. unfold call, mbind, M_bind, mret, M_ret.
  destruct (rangeLoop step (items opts) ∅ w) as [[base|r] w'] eqn:Hloop.
  - left. by exists base.
  - right.
    destruct (rangeLoop_return _ _ _ _ _ _ Hloop)
      as (pre & x & post & base & w1 & _ & _ & Hx).
    destruct (step_return _ _ _ _ _ Hx) as (e & -> & _). by exists e.
Qed.

Lemma rangeLoop_world {A S} (body : A → S → M S) (P : world → world → Prop) :
  (∀ w, P w w) →
  (∀ w1 w2 w3, P w1 w2 → P w2 w3 → P w1 w3) →
  (∀ x s w, P w (body x s w).2) →
  ∀ xs s w, P w (rangeLoop body xs s w).2.
Proof.
  intros Hrefl Htrans Hbody xs. induction xs as [|x xs IH]; intros s w; [done|].
  cbn [rangeLoop]. unfold mbind, M_bind.
  pose proof (Hbody x s w) as Hx.
  destruct (body x s w) as [[s1|r] w1]; [|done].
  eapply Htrans; [exact Hx|apply IH].
Qed.

Lemma jsonValueBody_world value base w : (jsonValueBody value base w).2 = w.
Proof.
  unfold jsonValueBody.
  by destruct (strvals_ParseJSON value base) as [base' [u|]].
Qed.

Lemma valueBody_world value base w : (valueBody value base w).2 = w.
Proof.
  unfold valueBody.
  by destruct (strvals_ParseInto value base) as [base' [u|]].
Qed.

Lemma stringValueBody_world value base w : (stringValueBody value base w).2 = w.
Proof.
  unfold stringValueBody.
  by destruct (strvals_ParseIntoString value base) as [base' [u|]].
Qed.

Lemma literalValueBody_world value base w :
  (literalValueBody value base w).2 = w.
Proof.
  unfold literalValueBody.
  by destruct (strvals_ParseLiteralInto value base) as [base' [u|]].
Qed.

Lemma rangeLoop_same_world {A S} (body : A → S → M S) :
  (∀ x s w, (body x s w).2 = w) →
  ∀ xs s w, (rangeLoop body xs s w).2 = w.
Proof.
  intros Hbody xs s w.
  apply (rangeLoop_world body (λ w w', w' = w)); [done|congruence|done].
Qed.

(** The loops over the expressions other than the file-content ones
    leave the world as it is. *)
Lemma applyValues_world opts base w :
  FileValues opts = [] → (call (applyValues opts base) w).2 = w.
Proof.
  intros HF. unfold applyValues, call, mbind, M_bind. rewrite HF.
  pose proof (rangeLoop_same_world _ jsonValueBody_world (JSONValues opts) base w) as H1.
  destruct (rangeLoop jsonValueBody _ base w) as [[b1|?] w1];
    simpl in H1; subst w1; [|done].
  pose proof (rangeLoop_same_world _ valueBody_world (Values opts) b1 w) as H2.
  destruct (rangeLoop valueBody _ b1 w) as [[b2|?] w2];
    simpl in H2; subst w2; [|done].
  pose proof (rangeLoop_same_world _ stringValueBody_world (StringValues opts) b2 w) as H3.
  destruct (rangeLoop stringValueBody _ b2 w) as [[b3|?] w3];
    simpl in H3; subst w3; [|done].
  cbn [rangeLoop]. unfold mret, M_ret.
  pose proof (rangeLoop_same_world _ literalValueBody_world (LiteralValues opts) b3 w) as H4.
  destruct (rangeLoop literalValueBody _ b3 w) as [[b4|?] w4];
    simpl in H4; subst w4; done.
Qed.

(** X11. Without value files and without file-content expressions,
    [MergeValues] reads nothing: the world is after the call as it was
    before, whatever the call returns. *)
Theorem MergeValues_reads_nothing (opts : Options) (w : world) :
  ValueFiles opts = [] → FileValues opts = [] →
  (MergeValues opts w).2 = w.
Proof.
  intros HV HF. rewrite MergeValues_split, HV. cbn [rangeLoop].
  unfold mret, M_ret. by apply applyValues_world.
Qed.

Lemma readFile_log filePath w :
  io_log (readFile filePath w).2 = io_log w ++ [readEvent filePath].
Proof.
  unfold readFile, readEvent.
  destruct (String.eqb (TrimSpace filePath) "-"); [done|].
  unfold os_ReadFile. by destruct (files w !! filePath) as [[]|].
Qed.

Lemma valueFileBody_reads filePath base w :
  (valueFileBody filePath base w).2 = (readFile filePath w).2.
Proof.
  unfold valueFileBody, mbind, M_bind, io.
  destruct (readFile filePath w) as [[bytes [e|]] w']; [done|].
  by destruct (yaml_Unmarshal bytes ∅) as [currentMap [u|]].
Qed.

Lemma valueFiles_log paths base w :
  ∃ n, n ≤ length paths ∧
       io_log (rangeLoop valueFileBody paths base w).2
         = io_log w ++ (readEvent <$> take n paths) ∧
       (∀ base', (rangeLoop valueFileBody paths base w).1 = inl base' →
                 n = length paths).
Proof.
  revert base w. induction paths as [|filePath rest IH]; intros base w.
  - exists 0. split; [done|]. split; [by rewrite (right_id_L [] _)|done].
  - cbn [rangeLoop]. unfold mbind, M_bind.
    pose proof (valueFileBody_reads filePath base w) as Hw.
    destruct (valueFileBody filePath base w) as [[base1|r] w1]; simpl in Hw.
    + destruct (IH base1 w1) as (n & Hn & Hlog & Hall).
      exists (S n). split; [simpl; lia|]. split.
      * rewrite Hlog, Hw, readFile_log. cbn [take fmap list_fmap].
        by rewrite <-(assoc_L (++)).
      * intros base' Hok. simpl. f_equal. by eapply Hall.
    + exists 1. split; [simpl; lia|]. split; [|done].
      cbn [take fmap list_fmap snd]. rewrite Hw, readFile_log.
      by rewrite take_0.
Qed.


End MergeValues_more.

(** ** The value files *)

Lemma mergeSlot_again (v : val) :
  ∀ old, mergeSlot (Some (mergeSlot old v)) v = mergeSlot old v.
Proof.
  remember (val_size v) as n eqn:Hn. revert v Hn.
  induction (lt_wf n) as [n _ IH]. intros v -> old.
  destruct (asMap v) as [mb|] eqn:Hmb;
    [|by rewrite (mergeSlot_scalar _ v Hmb), (mergeSlot_scalar _ v Hmb)].
  destruct v; try done. injection Hmb as ->.
  assert (∀ ma, mergeMaps (mergeMaps ma mb) mb = mergeMaps ma mb) as Htwice.
  { intros ma. apply map_eq. intros k. rewrite !mergeMaps_lookup.
    destruct (mb !! k) as [b|] eqn:Hb; [|done]. f_equal.
    apply (IH (val_size b) (val_size_lookup _ _ _ Hb) b eq_refl). }
  destruct old as [[| | | | | |ma]|]; cbn [mergeSlot]; f_equal;
    try apply Htwice;
    rewrite <-(mergeMaps_from_empty mb) at 1 3; apply Htwice.
Qed.

Section ValueFiles_facts.
Context `{libs : Libs}.

Lemma valueFileBody_eq filePath base w :
  valueFileBody filePath base w =
  let '((bytes, err), w1) := readFile filePath w in
  match err with
  | Some e => (inr (None, Some e), w1)
  | None =>
      match yaml_Unmarshal bytes ∅ with
      | (_, Some u) =>
          (inr (None, Some (Wrap u ("failed to parse " +:+ filePath))), w1)
      | (currentMap, None) => (inl (mergeMaps base currentMap), w1)
      end
  end.
Proof.
  unfold valueFileBody, mbind, M_bind, io, Return, mret, M_ret.
  destruct (readFile filePath w) as [[bytes [e|]] w1]; [done|].
  by destruct (yaml_Unmarshal bytes ∅) as [currentMap [u|]].
Qed.

(** The loop over the value files is the fold of [mergeMaps] over the
    documents of the files. *)
Lemma valueFiles_fold paths base w :
  rangeLoop valueFileBody paths base w =
  match parseValueFiles paths w with
  | (inl docs, w') => (inl (foldl mergeMaps base docs), w')
  | (inr e, w') => (inr (None, Some e), w')
  end.
Proof.
  revert base w. induction paths as [|filePath rest IH]; intros base w; [done|].
  cbn [rangeLoop parseValueFiles]. unfold mbind, M_bind.
  rewrite valueFileBody_eq.
  destruct (readFile filePath w) as [[bytes [e|]] w1]; [done|].
  destruct (yaml_Unmarshal bytes ∅) as [currentMap [u|]]; [done|].
  rewrite IH. by destruct (parseValueFiles rest w1) as [[docs|e] w2].
Qed.

(** X13. With value files only, [MergeValues] returns the document of
    the first file with the documents of the following files merged into
    it from left to right, or the error of the first file that cannot be
    read or parsed; what a file parses to does not depend on the files
    before it. A single file gives the document it parses to. *)
Theorem MergeValues_value_files_only (opts : Options) (w : world) :
  JSONValues opts = [] → Values opts = [] → StringValues opts = [] →
  FileValues opts = [] → LiteralValues opts = [] →
  MergeValues opts w =
  match parseValueFiles (ValueFiles opts) w with
  | (inl docs, w') =>
      ((Some (match docs with
              | [] => ∅
              | d :: rest => foldl mergeMaps d rest
              end), None), w')
  | (inr e, w') => ((None, Some e), w')
  end.
Proof.
  intros HJ HV HS HF HL. rewrite MergeValues_split, valueFiles_fold.
  destruct (parseValueFiles (ValueFiles opts) w) as [[docs|e] w']; [|done].
  unfold applyValues, call, mbind, M_bind. rewrite HJ, HV, HS, HF, HL.
  cbn [rangeLoop]. unfold mret, M_ret. do 3 f_equal.
  destruct docs as [|d rest]; [done|].
  cbn [foldl]. by rewrite mergeMaps_from_empty.
Qed.

(** *** Worlds that offer the same input *)

Lemma same_input_refl w : same_input w w.
Proof. done. Qed.

Lemma same_input_trans w1 w2 w3 :
  same_input w1 w2 → same_input w2 w3 → same_input w1 w3.
Proof. intros (?&?&?) (?&?&?). repeat split; congruence. Qed.

Lemma readFile_same filePath w1 w2 :
  same_input w1 w2 →
  (readFile filePath w1).1 = (readFile filePath w2).1 ∧
  same_input (readFile filePath w1).2 (readFile filePath w2).2.
Proof.
  intros (Hin & Herr & Hfiles). unfold readFile.
  destruct (String.eqb (TrimSpace filePath) "-").
  - unfold io_ReadAll_Stdin. cbn. by rewrite Hin, Herr.
  - unfold os_ReadFile. rewrite Hfiles.
    by destruct (files w2 !! filePath) as [[]|].
Qed.

(** Reading a file, not standard input, leaves the input as it is. *)
Lemma readFile_file_same filePath w :
  TrimSpace filePath ≠ "-" → same_input w (readFile filePath w).2.
Proof.
  intros Hne. unfold readFile.
  destruct (String.eqb_spec (TrimSpace filePath) "-") as [?|_]; [done|].
  unfold os_ReadFile. by destruct (files w !! filePath) as [[]|].
Qed.

Lemma reader_same rs w1 w2 :
  same_input w1 w2 →
  (reader rs w1).1 = (reader rs w2).1 ∧
  same_input (reader rs w1).2 (reader rs w2).2.
Proof.
  intros Hsame. destruct (readFile_same rs _ _ Hsame) as [Hres Hw].
  unfold reader.
  destruct (readFile rs w1) as [[b1 e1] w1'], (readFile rs w2) as [[b2 e2] w2'].
  simpl in *. injection Hres as -> ->. by destruct e2.
Qed.

Lemma runPlan_same p w1 w2 :
  same_input w1 w2 →
  (runPlan reader p w1).1 = (runPlan reader p w2).1 ∧
  same_input (runPlan reader p w1).2 (runPlan reader p w2).2.
Proof.
  revert w1 w2. induction p as [base err|rs k IH]; intros w1 w2 Hsame; [done|].
  cbn [runPlan].
  destruct (reader_same rs _ _ Hsame) as [Hres Hw].
  destruct (reader rs w1) as [[v1 e1] w1'], (reader rs w2) as [[v2 e2] w2'].
  simpl in *. injection Hres as -> ->. by apply IH.
Qed.

Lemma step_same x base w1 w2 :
  same_input w1 w2 →
  (step x base w1).1 = (step x base w2).1 ∧
  same_input (step x base w1).2 (step x base w2).2.
Proof.
  intros Hsame.
  destruct x as [filePath|value|value|value|value|value]; cbn [step].
  - destruct (readFile_same filePath _ _ Hsame) as [Hres Hw].
    unfold valueFileBody, mbind, M_bind, io.
    destruct (readFile filePath w1) as [[b1 e1] w1'],
             (readFile filePath w2) as [[b2 e2] w2'].
    simpl in *. injection Hres as -> ->. destruct e2; [done|].
    by destruct (yaml_Unmarshal b2 ∅) as [currentMap [u|]].
  - unfold jsonValueBody.
    by destruct (strvals_ParseJSON value base) as [base' [u|]].
  - unfold valueBody.
    by destruct (strvals_ParseInto value base) as [base' [u|]].
  - unfold stringValueBody.
    by destruct (strvals_ParseIntoString value base) as [base' [u|]].
  - destruct (runPlan_same (strvals_ParseIntoFile value base) _ _ Hsame)
      as [Hres Hw].
    unfold fileValueBody, mbind, M_bind, io.
    destruct (runPlan reader _ w1) as [[b1 e1] w1'],
             (runPlan reader _ w2) as [[b2 e2] w2'].
    simpl in *. injection Hres as -> ->. by destruct e2.
  - unfold literalValueBody.
    by destruct (strvals_ParseLiteralInto value base) as [base' [u|]].
Qed.

Lemma rangeLoop_step_same xs base w1 w2 :
  same_input w1 w2 →
  (rangeLoop step xs base w1).1 = (rangeLoop step xs base w2).1 ∧
  same_input (rangeLoop step xs base w1).2 (rangeLoop step xs base w2).2.
Proof.
  revert base w1 w2. induction xs as [|x xs IH]; intros base w1 w2 Hsame; [done|].
  cbn [rangeLoop]. unfold mbind, M_bind.
  destruct (step_same x base _ _ Hsame) as [Hres Hw].
  destruct (step x base w1) as [r1 w1'], (step x base w2) as [r2 w2'].
  simpl in *. subst r2. destruct r1 as [base1|r]; [by apply IH|done].
Qed.

Lemma rangeLoop_value_file_twice filePath pre rest base w :
  TrimSpace filePath ≠ "-" →
  (rangeLoop step (pre ++ IValueFile filePath :: IValueFile filePath :: rest)
     base w).1
  = (rangeLoop step (pre ++ IValueFile filePath :: rest) base w).1.
Proof.
  intros Hfile. rewrite !rangeLoop_app. unfold mbind, M_bind.
  destruct (rangeLoop step pre base w) as [[base1|r] w1]; [|done].
  cbn [rangeLoop]. unfold mbind, M_bind. cbn [step].
  rewrite (valueFileBody_eq filePath base1 w1).
  pose proof (readFile_file_same filePath w1 Hfile) as Hsame.
  destruct (readFile filePath w1) as [[bytes [e|]] w2] eqn:Hread; [done|].
  destruct (yaml_Unmarshal bytes ∅) as [currentMap [u|]] eqn:Hy; [done|].
  simpl in Hsame. rewrite valueFileBody_eq.
  destruct (readFile_same filePath _ _ Hsame) as [Hres Hw].
  rewrite Hread in Hres, Hw.
  destruct (readFile filePath w2) as [[bytes' e'] w3]. simpl in Hres, Hw.
  injection Hres as <- <-. rewrite Hy.
  assert (mergeMaps (mergeMaps base1 currentMap) currentMap
          = mergeMaps base1 currentMap) as ->.
  { apply map_eq. intros k. rewrite !mergeMaps_lookup.
    destruct (currentMap !! k) as [b|]; [|done]. f_equal.
    apply mergeSlot_again. }
  symmetry. by apply rangeLoop_step_same.
Qed.

(** X14. Giving the same value file twice in a row, a file and not
    standard input, gives what giving it once gives: the same document
    or the same error. *)
Theorem MergeValues_value_file_twice (opts : Options)
    (pre post : list string) (filePath : string) (w : world) :
  TrimSpace filePath ≠ "-" →
  (MergeValues (withValueFiles opts (pre ++ filePath :: filePath :: post)) w).1
  = (MergeValues (withValueFiles opts (pre ++ filePath :: post)) w).1.
Proof.
  intros Hfile. rewrite !MergeValues_items. unfold items, withValueFiles.
  cbn [ValueFiles JSONValues Values StringValues FileValues LiteralValues].
  rewrite !fmap_app, !fmap_cons, <-!(assoc_L (++)), <-!app_comm_cons.
  unfold call, mbind, M_bind.
  pose proof (rangeLoop_value_file_twice filePath (IValueFile <$> pre)
    ((IValueFile <$> post) ++ (IJSONValue <$> JSONValues opts) ++
     (IValue <$> Values opts) ++ (IStringValue <$> StringValues opts) ++
     (IFileValue <$> FileValues opts) ++
     (ILiteralValue <$> LiteralValues opts)) ∅ w Hfile) as Hsame.
  destruct (rangeLoop step _ ∅ w) as [r1 w1],
           (rangeLoop step _ ∅ w) as [r2 w2].
  simpl in Hsame. subst r2. by destruct r1.
Qed.

End ValueFiles_facts.

(** ** Standard input *)

Lemma readFile_after_stdin filePath w :
  stdin w = EmptyString →
  stdin (readFile filePath w).2 = EmptyString ∧
  stdin_err (readFile filePath w).2 = stdin_err w.
Proof.
  intros Hempty. unfold readFile.
  destruct (String.eqb (TrimSpace filePath) "-"); [done|].
  unfold os_ReadFile. by destruct (files w !! filePath) as [[]|].
Qed.


(** ** Closed instances of the further properties *)

Lemma mergeMaps_flat_witness :
  let A : gmap string val := {[ "a" := VMap {[ "x" := VInt 1 ]}; "b" := VInt 2 ]} in
  let B : gmap string val := {[ "a" := VInt 5; "c" := VSeq [VInt 1] ]} in
  (flatDoc B ∨ flatDoc A) ∧ mergeMaps A B = B ∪ A.
Proof.
  intros A B.
  assert (flatDoc B ∨ flatDoc A) as Hflat.
  { left. apply (bool_decide_unpack _). vm_compute. reflexivity. }
  split; [exact Hflat|]. exact (mergeMaps_flat A B Hflat).
Defined.

Lemma mergeMaps_disjoint_witness :
  let A : gmap string val := {[ "a" := VMap {[ "x" := VInt 1 ]} ]} in
  let B : gmap string val := {[ "b" := VMap {[ "y" := VInt 2 ]} ]} in
  dom A ## dom B ∧ mergeMaps A B = A ∪ B ∧ mergeMaps A B = mergeMaps B A.
Proof.
  intros A B.
  assert (dom A ## dom B) as Hd.
  { apply (bool_decide_unpack _). vm_compute. reflexivity. }
  split; [exact Hd|]. exact (mergeMaps_disjoint A B Hd).
Defined.

Lemma mergeMaps_incoming_leaf_witness :
  let A : gmap string val := {[ "a" := VMap {[ "x" := VInt 1; "y" := VInt 2 ]} ]} in
  let B : gmap string val := {[ "a" := VMap {[ "y" := VInt 7 ]} ]} in
  getPath ["a"; "y"] (VMap B) = Some (VInt 7) ∧
  asMap (VInt 7) = None ∧
  getPath ["a"; "y"] (VMap (mergeMaps A B)) = Some (VInt 7).
Proof.
  intros A B. split; [reflexivity|]. split; [reflexivity|].
  apply (mergeMaps_incoming_leaf A B ["a"; "y"] (VInt 7)); reflexivity.
Defined.

Lemma mergeMaps_existing_kept_witness :
  let A : gmap string val := {[ "a" := VMap {[ "x" := VInt 1; "y" := VInt 2 ]} ]} in
  let B : gmap string val := {[ "a" := VMap {[ "y" := VInt 7 ]} ]} in
  offPath ["a"; "x"] (VMap B) = true ∧
  getPath ["a"; "x"] (VMap (mergeMaps A B)) = getPath ["a"; "x"] (VMap A).
Proof.
  intros A B. split; [reflexivity|].
  apply (mergeMaps_existing_kept A B ["a"; "x"]). reflexivity.
Defined.


Lemma twoDocs_reps :
  reps_doc twoDocs (Some 1%positive) {[ "a" := VMap {[ "x" := VInt 1 ]} ]} ∧
  reps_doc twoDocs (Some 3%positive) {[ "a" := VMap {[ "y" := VInt 2 ]} ]}.
Proof.
  split.
  - apply (reps_doc_singleton _ _ _ (HMap (Some 2%positive))); [reflexivity|].
    apply (reps_doc_singleton _ _ _ (HInt 1)); [reflexivity|constructor].
  - apply (reps_doc_singleton _ _ _ (HMap (Some 4%positive))); [reflexivity|].
    apply (reps_doc_singleton _ _ _ (HInt 2)); [reflexivity|constructor].
Qed.

Lemma twoDocs_run :
  mergeMaps_heap twoDocs (Some 1%positive) (Some 3%positive)
    (<[ 5%positive := {[ "a" := HMap (Some 6%positive) ]} ]>
       (<[ 6%positive := {[ "x" := HInt 1; "y" := HInt 2 ]} ]> twoDocs))
    5%positive.
Proof. apply (mergeMaps_exec_run 2). vm_compute. reflexivity. Qed.

Lemma mergeMaps_heap_order_independent_witness :
  let A : gmap string val := {[ "a" := VMap {[ "x" := VInt 1 ]} ]} in
  let B : gmap string val := {[ "a" := VMap {[ "y" := VInt 2 ]} ]} in
  let h' := <[ 5%positive := {[ "a" := HMap (Some 6%positive) ]} ]>
              (<[ 6%positive := {[ "x" := HInt 1; "y" := HInt 2 ]} ]> twoDocs) in
  reps_doc twoDocs (Some 1%positive) A ∧
  reps_doc twoDocs (Some 3%positive) B ∧
  mergeMaps_heap twoDocs (Some 1%positive) (Some 3%positive) h' 5%positive ∧
  reps_doc h' (Some 5%positive) (mergeMaps A B).
Proof.
  intros A B h'.
  split; [exact (proj1 twoDocs_reps)|].
  split; [exact (proj2 twoDocs_reps)|].
  split; [exact twoDocs_run|].
  exact (proj1 (mergeMaps_heap_order_independent twoDocs _ _ A B h' _ h' _
                  (proj1 twoDocs_reps) (proj2 twoDocs_reps)
                  twoDocs_run twoDocs_run)).
Defined.

Lemma mergeMaps_heap_shares_witness :
  let h' := <[ 5%positive := {[ "a" := HMap (Some 6%positive) ]} ]>
              (<[ 6%positive := {[ "x" := HInt 1; "y" := HInt 2 ]} ]> twoDocs) in
  let ma : gmap string hval := {[ "a" := HMap (Some 2%positive) ]} in
  let mb : gmap string hval := {[ "a" := HMap (Some 4%positive) ]} in
  mergeMaps_heap twoDocs (Some 1%positive) (Some 3%positive) h' 5%positive ∧
  readMap twoDocs (Some 1%positive) = Some ma ∧
  readMap twoDocs (Some 3%positive) = Some mb ∧
  ∃ mo, h' !! 5%positive = Some mo ∧
    ∀ k, match mb !! k with
         | None => mo !! k = ma !! k
         | Some v =>
             if bothMaps (ma !! k) v
             then ∃ r, mo !! k = Some (HMap (Some r)) ∧ twoDocs !! r = None
             else mo !! k = Some v
         end.
Proof.
  intros h' ma mb.
  split; [exact twoDocs_run|]. split; [reflexivity|]. split; [reflexivity|].
  exact (mergeMaps_heap_shares twoDocs _ _ h' _ ma mb twoDocs_run
           eq_refl eq_refl).
Defined.

Lemma MergeValues_reads_nothing_witness :
  ValueFiles plainThenString = [] ∧ FileValues plainThenString = [] ∧
  (MergeValues plainThenString everyKindWorld).2 = everyKindWorld.
Proof.
  split; [reflexivity|]. split; [reflexivity|].
  exact (MergeValues_reads_nothing plainThenString everyKindWorld
           eq_refl eq_refl).
Defined.


Lemma MergeValues_value_files_only_witness :
  JSONValues filesOnly = [] ∧ Values filesOnly = [] ∧
  StringValues filesOnly = [] ∧ FileValues filesOnly = [] ∧
  LiteralValues filesOnly = [] ∧
  MergeValues filesOnly everyKindWorld =
  match parseValueFiles (ValueFiles filesOnly) everyKindWorld with
  | (inl docs, w') =>
      ((Some (match docs with
              | [] => ∅
              | d :: rest => foldl mergeMaps d rest
              end), None), w')
  | (inr e, w') => ((None, Some e), w')
  end.
Proof.
  repeat (split; [reflexivity|]).
  exact (MergeValues_value_files_only filesOnly everyKindWorld
           eq_refl eq_refl eq_refl eq_refl eq_refl).
Defined.

Lemma MergeValues_value_file_twice_witness :
  TrimSpace "f.yaml" ≠ "-" ∧
  (MergeValues (withValueFiles filesThenValue ([] ++ "f.yaml" :: "f.yaml" :: [" - "]))
     everyKindWorld).1
  = (MergeValues (withValueFiles filesThenValue ([] ++ "f.yaml" :: [" - "]))
       everyKindWorld).1.
Proof.
  assert (TrimSpace "f.yaml" ≠ "-") as Hfile by discriminate.
  split; [exact Hfile|].
  exact (MergeValues_value_file_twice filesThenValue [] [" - "] "f.yaml"
           everyKindWorld Hfile).
Defined.


(** The computed values of some of these instances. *)
Example MergeValues_files_only_computed :
  MergeValues filesOnly everyKindWorld =
  ((Some {[ "a" := VStr "foo"; "q" := VStr "zed" ]}, None),
   {| stdin := EmptyString; stdin_err := None;
      files := files everyKindWorld;
      io_log := [EvOpen "f.yaml"; EvReadStdin] |}).
Proof. vm_compute. reflexivity. Qed.
